(** * libgo/common/timer.h : the hierarchical timing wheel [co::Timer<F>]

    A shallow embedding of the class template [Timer<F>] and of its nested
    [Element] and [TimerId], followed by the properties of the wheel that
    are settled against it.

    Conventions.
    - Time points and durations are their [count()], an integer ([Z]); the
      chrono arithmetic on them is signed and is taken not to overflow.
      [uint64_t] values are [Z] reduced modulo [2^64] where the source
      converts to it.
    - Heap objects ([Element]) live in a list indexed by their address, so
      that aliasing between a slot, a handle and the pool is by address.
    - The callback [F] is a template parameter; invoking [cb_()] is recorded
      in a ghost log together with the state of the entry at that moment. *)

From Stdlib Require Import ZArith Lia Bool.
From stdpp Require Import base numbers list option.

#[local] Open Scope Z_scope.

(** ** Collaborators that are not part of timer.h *)

(** Modelled from the spec: [LFLock] (spinlock.h), the gate.  "An atomic
    state cell with two legal transitions (open->held), exposed as a
    try_acquire operation".  [true] is held.  [try_lock] is a test-and-set:
    it answers whether the flag was clear and leaves it set. *)
Definition LFLock := bool.

Definition LFLock_new : LFLock := false.

Definition LFLock_try_lock (l : LFLock) : bool * LFLock := (negb l, true).

Definition LFLock_unlock (l : LFLock) : LFLock := false.

Definition LFLock_is_lock (l : LFLock) : bool := l.

(** Modelled from the spec: [TSQueue<Element>] (ts_queue.h), used as [Slot]
    and as [Pool]: "push, drain-all, erase-by-identity".  A queue holds the
    addresses of the entries linked into it, in arrival order. *)
Definition TSQueue := list nat.

Definition TSQueue_push (x : nat) (q : TSQueue) : TSQueue := q ++ [x].

Definition TSQueue_erase (x : nat) (q : TSQueue) : TSQueue :=
  filter (λ y, y ≠ x) q.

(** [void* slot_] points at a [Slot]; a slot is [slots_[level][index]]. *)
Definition SlotRef : Type := nat * nat.

Definition s_gear1 : Z := 4.
Definition s_gear1Shift : Z := 2.
Definition s_gear : Z := 64.
Definition s_gearShift : Z := 6.

(** Conversion of a signed value to [uint64_t]. *)
Definition to_uint64 (z : Z) : Z := z mod 2 ^ 64.

(** [std::chrono::years(4)] in seconds: a year is 31556952 s. *)
Definition years4_seconds : Z := 4 * 31556952.

Section TimerF.

(** The template parameter [F] and its default-constructed value (the
    [cb_] of an [Element] that was allocated and not yet initialised). *)
Variable F : Type.
Variable F_default : F.

(** ** [Timer::Element] *)

Record Element := mkElement {
  cb_ : F;
  active_ : LFLock;
  slot_ : option SlotRef
}.

(** One execution of a stored callback: the entry, the callback, and the
    back-reference and gate of the entry as the callback was entered. *)
Record Fire := mkFire {
  fire_this : nat;
  fire_cb : F;
  fire_slot : option SlotRef;
  fire_gate : LFLock
}.

Definition Element_init (cb : F) (e : Element) : Element :=
  let e1 := mkElement cb (active_ e) (slot_ e) in
  let '(ok, a) := LFLock_try_lock (active_ e1) in
  let e2 := mkElement (cb_ e1) (if ok then LFLock_unlock a else a) (slot_ e1) in
  mkElement (cb_ e2) (active_ e2) None.

(** [call]: [lock] is a [std::unique_lock] built with [defer_lock]; when
    its [try_lock] succeeded it owns the gate, and its destructor unlocks
    the gate as [call] returns.  [Element_call_body] is the body up to the
    end of [cb_()], [unique_lock_release] the destructor of [lock]. *)
Definition Element_call_body (this : nat) (e : Element)
    : bool * Element * list Fire :=
  let '(owns, a) := LFLock_try_lock (active_ e) in
  let e1 := mkElement (cb_ e) a (slot_ e) in
  if negb owns then (owns, e1, [])
  else
    let e2 := mkElement (cb_ e1) (active_ e1) None in
    (owns, e2, [mkFire this (cb_ e2) (slot_ e2) (active_ e2)]).

Definition unique_lock_release (owns : bool) (e : Element) : Element :=
  if owns then mkElement (cb_ e) (LFLock_unlock (active_ e)) (slot_ e) else e.

Definition Element_call (this : nat) (e : Element) : Element * list Fire :=
  let '(owns, e1, log) := Element_call_body this e in
  (unique_lock_release owns e1, log).

Definition Slot_erase (r : SlotRef) (x : nat)
    (slots : list (list TSQueue)) : list (list TSQueue) :=
  alter (alter (TSQueue_erase x) r.2) r.1 slots.

Definition Element_cancel (this : nat) (e : Element)
    (slots : list (list TSQueue)) : bool * Element * list (list TSQueue) :=
  let '(ok, a) := LFLock_try_lock (active_ e) in
  let e1 := mkElement (cb_ e) a (slot_ e) in
  if negb ok then (false, e1, slots)
  else
    match slot_ e1 with
    | Some r => (true, e1, Slot_erase r this slots)
    | None => (true, e1, slots)
    end.

Definition Element_isValid (e : Element) : bool :=
  negb (LFLock_is_lock (active_ e)).

(** ** [Timer::TimerId] *)

(** [elem_] is a [SharedPtr<Element>] (an address or null); [timer_] is a
    pointer to the one wheel of the model, so it is null or not. *)
Record TimerId := mkTimerId {
  elem_ : option nat;
  timer_ : bool
}.

Definition TimerId_empty : TimerId := mkTimerId None false.

Definition TimerId_bool (id : TimerId) : bool :=
  bool_decide (is_Some (elem_ id)) && timer_ id.

(** ** [Timer] *)

Record Timer := mkTimer {
  heap : list Element;
  fired : list Fire;
  minPoolSize_ : Z;
  maxPoolSize_ : Z;
  pool_ : TSQueue;
  begin_ : Z;
  precision_ : Z;
  slots_ : list (list TSQueue);
  points_ : list Z;
  last_ : Z
}.

Definition set_heap (h : list Element) (t : Timer) : Timer :=
  mkTimer h (fired t) (minPoolSize_ t) (maxPoolSize_ t) (pool_ t)
          (begin_ t) (precision_ t) (slots_ t) (points_ t) (last_ t).

Definition set_fired (l : list Fire) (t : Timer) : Timer :=
  mkTimer (heap t) l (minPoolSize_ t) (maxPoolSize_ t) (pool_ t)
          (begin_ t) (precision_ t) (slots_ t) (points_ t) (last_ t).

Definition set_pool (q : TSQueue) (t : Timer) : Timer :=
  mkTimer (heap t) (fired t) (minPoolSize_ t) (maxPoolSize_ t) q
          (begin_ t) (precision_ t) (slots_ t) (points_ t) (last_ t).

Definition set_slots (s : list (list TSQueue)) (t : Timer) : Timer :=
  mkTimer (heap t) (fired t) (minPoolSize_ t) (maxPoolSize_ t) (pool_ t)
          (begin_ t) (precision_ t) s (points_ t) (last_ t).

(** *** The constructor *)

(** A [std::chrono::duration<Rep, Period>] is its count together with
    [Period = num/den] seconds.  [timeRange <= years(4)] compares the two
    durations exactly, in their common type, as long as that type holds
    both of them. *)
Definition le_years4 (Period : Z * Z) (timeRange : Z) : bool :=
  timeRange * Period.1 <=? years4_seconds * Period.2.

(** The [for] loop that counts the levels; [None] when the loop is still
    running after [fuel] iterations.  [timeRange] is an integer here: this
    is the loop as it runs while no product leaves the representation of
    the duration; [Timer_levels_Rep] keeps [timeRange] within it. *)
Fixpoint Timer_levels (fuel : nat) (Period : Z * Z) (timeRange : Z)
    (level : nat) : option nat :=
  match fuel with
  | O => None
  | S fuel' =>
      if le_years4 Period timeRange
      then Timer_levels fuel' Period (timeRange * s_gear) (S level)
      else Some level
  end.

(** The period of [FastSteadyClock::duration] (clock.h is not part of the
    sources at hand), which [duration_cast] converts the precision to. *)
Variable ClockPeriod : Z * Z.

Definition duration_cast (from to : Z * Z) (count : Z) : Z :=
  Z.quot (count * (from.1 * to.2)) (from.2 * to.1).

Definition resize_slots (level : nat) : list (list TSQueue) :=
  match level with
  | O => []
  | S n => replicate (Z.to_nat s_gear1) [] :: replicate n (replicate (Z.to_nat s_gear) [])
  end.

Definition Timer_ctor (fuel : nat) (now : Z) (Period : Z * Z) (precision : Z)
    : option Timer :=
  level ← Timer_levels fuel Period (precision * s_gear1) 1;
  Some (mkTimer [] [] 0 0 [] now (duration_cast Period ClockPeriod precision)
                (resize_slots level) (replicate level 0) now).

Definition SetPoolSize (min max : Z) (t : Timer) : Timer :=
  mkTimer (heap t) (fired t) min max (pool_ t)
          (begin_ t) (precision_ t) (slots_ t) (points_ t) (last_ t).

(** *** [StartTimer] *)

(** Modelled from the spec: [NewElement] is declared in timer.h and defined
    elsewhere.  "acquire() returns a previously-released entry [...] or
    allocates a new one if the pool is empty"; the reinitialisation is
    [Element::init], which [StartTimer] calls on the result. *)
Definition NewElement (t : Timer) : nat * Timer :=
  match pool_ t with
  | e :: pool' => (e, set_pool pool' t)
  | [] => (length (heap t),
           set_heap (heap t ++ [mkElement F_default LFLock_new None]) t)
  end.

(** The [while] loop of [StartTimer]; it returns [level] and [durVal1]. *)
Fixpoint StartTimer_while (fuel : nat) (size : nat) (level : nat)
    (durVal1 durValN : Z) : option (nat * Z) :=
  match fuel with
  | O => None
  | S fuel' =>
      if (0 <? durValN) && (level + 1 <? size)%nat
      then StartTimer_while fuel' size (S level) durValN (durValN ≫ s_gearShift)
      else Some (level, durVal1)
  end.

(** [level] and [offset] as [StartTimer] computes them from [durVal]. *)
Definition StartTimer_place (size : nat) (durVal : Z) : option (nat * Z) :=
  let durVal1 := durVal ≫ s_gear1Shift in
  if durVal1 =? 0 then Some (0%nat, Z.land durVal (s_gear1 - 1))
  else
    '(level, durVal1) ← StartTimer_while size size 1 durVal1 (durVal1 ≫ s_gearShift);
    Some (level, Z.land durVal1 (s_gear - 1)).

(** [durVal]: the quotient of two [int64] counts, truncated towards zero
    and converted to [uint64_t].  The source leaves it undefined when
    [precision_] is zero or when the sum or the difference leaves [int64];
    the value below means something only away from those. *)
Definition StartTimer_durVal (now dur : Z) (t : Timer) : Z :=
  to_uint64 (Z.quot (now + dur - begin_ t) (precision_ t)).

Definition StartTimer (now dur : Z) (cb : F) (t : Timer)
    : option (TimerId * Timer) :=
  let '(element, t) := NewElement t in
  e ← heap t !! element;
  let t := set_heap (<[element := Element_init cb e]> (heap t)) t in
  let durVal := StartTimer_durVal now dur t in
  '(level, offset) ← StartTimer_place (length (slots_ t)) durVal;
  let timerId := mkTimerId (Some element) true in
  wheel ← slots_ t !! level;
  point ← points_ t !! level;
  let i := Z.to_nat (to_uint64 (point + offset) `mod` Z.of_nat (length wheel)) in
  _ ← wheel !! i;
  Some (timerId,
        set_slots (alter (alter (TSQueue_push element) i) level (slots_ t)) t).

(** *** [StopTimer] *)

(** [Element::cancel] run on the entry at address [this]. *)
Definition Timer_cancel (this : nat) (t : Timer) : option (bool * Timer) :=
  e ← heap t !! this;
  let '(r, e', slots') := Element_cancel this e (slots_ t) in
  Some (r, set_slots slots' (set_heap (<[this := e']> (heap t)) t)).

(** [Timer::StopTimer]: [id ? id->cancel() : true], the [cancel] being that
    of the entry the handle refers to. *)
Definition Timer_StopTimer (id : TimerId) (t : Timer) : option (bool * Timer) :=
  if TimerId_bool id then this ← elem_ id; Timer_cancel this t
  else Some (true, t).

(** [TimerId::StopTimer]: the handle asks its wheel, if it has one, to stop
    the timer it stands for. *)
Definition TimerId_StopTimer (id : TimerId) (t : Timer) : option (bool * Timer) :=
  if timer_ id then Timer_StopTimer id t else Some (true, t).

(** A fire attempt on the entry at address [this]: [Element::call] run
    against the wheel's heap, its callback executions appended to the log. *)
Definition Timer_call (this : nat) (t : Timer) : option Timer :=
  e ← heap t !! this;
  let '(e', log) := Element_call this e in
  Some (set_fired (fired t ++ log) (set_heap (<[this := e']> (heap t)) t)).

(** Reinitialisation of the entry at address [this]. *)
Definition Timer_init (this : nat) (cb : F) (t : Timer) : option Timer :=
  e ← heap t !! this;
  Some (set_heap (<[this := Element_init cb e]> (heap t)) t).

(** *** [ThreadRun] *)

(** The inner [for] loop, from index [i], [count] iterations. *)
Fixpoint ThreadRun_for (count : nat) (i : nat) (durVal : Z)
    (destPoints : list Z) : list Z * Z :=
  match count with
  | O => (destPoints, durVal)
  | S count' =>
      ThreadRun_for count' (S i) (durVal ≫ s_gearShift)
                    (<[i := Z.land durVal (s_gear - 1)]> destPoints)
  end.

(** One iteration of the [for (;;)] loop, with the clock reading [now].
    As in [StartTimer_durVal], the quotient means something only for a
    [precision_] other than zero and a difference within [int64]. *)
Definition ThreadRun_pass (now : Z) (t : Timer) (destPoints : list Z)
    : list Z * Timer :=
  let durVal := to_uint64 (Z.quot (now - begin_ t) (precision_ t)) in
  let destPoints := <[0%nat := Z.land durVal (s_gear1 - 1)]> destPoints in
  let durVal := durVal ≫ s_gear1Shift in
  let '(destPoints, _) :=
    ThreadRun_for (length destPoints - 1) 1 durVal destPoints in
  (destPoints, t).

(** The loop never exits; its first [length clock] iterations, reading the
    clock values [clock] in turn. *)
Fixpoint ThreadRun_passes (clock : list Z) (t : Timer) (destPoints : list Z)
    : list Z * Timer :=
  match clock with
  | [] => (destPoints, t)
  | now :: clock' =>
      let '(destPoints', t') := ThreadRun_pass now t destPoints in
      ThreadRun_passes clock' t' destPoints'
  end.

Definition ThreadRun (clock : list Z) (t : Timer) : list Z * Timer :=
  ThreadRun_passes clock t (replicate (length (points_ t)) 0).

(** ** Observations on a wheel *)

(** The queue of the slot [r], when [r] is a slot of the wheel. *)
Definition slot_at (r : SlotRef) (t : Timer) : option TSQueue :=
  wheel ← slots_ t !! r.1; wheel !! r.2.

(** Every link of every slot, level by level and slot by slot. *)
Definition links (t : Timer) : list nat := concat (concat (slots_ t)).

(** In how many places of the wheel the entry [this] is linked. *)
Definition link_count (this : nat) (t : Timer) : nat :=
  length (filter (λ x, x = this) (links t)).

(** The back-reference of an entry is null, or names a slot of the wheel
    that holds the entry. *)
Definition slot_ref_ok (this : nat) (e : Element) (t : Timer) : Prop :=
  slot_ e = None ∨
  ∃ r q, slot_ e = Some r ∧ slot_at r t = Some q ∧ this ∈ q.

(** How many times the callback of the entry [this] was executed. *)
Definition executions (this : nat) (t : Timer) : nat :=
  length (filter (λ f, fire_this f = this) (fired t)).

(** The gate of the entry [this]. *)
Definition gate (this : nat) (t : Timer) : option LFLock :=
  active_ <$> heap t !! this.

(** ** Sequences of fire and cancel attempts on one entry *)

Inductive Attempt := Fire_attempt | Cancel_attempt.

Definition is_fire (a : Attempt) : bool :=
  match a with Fire_attempt => true | Cancel_attempt => false end.

(** Runs the attempts in order on the entry [this]; the booleans are the
    results of the cancel attempts, in order. *)
Fixpoint attempts (this : nat) (ops : list Attempt) (t : Timer)
    : option (list bool * Timer) :=
  match ops with
  | [] => Some ([], t)
  | Fire_attempt :: ops' =>
      t' ← Timer_call this t; attempts this ops' t'
  | Cancel_attempt :: ops' =>
      '(r, t') ← Timer_cancel this t;
      '(rs, t'') ← attempts this ops' t';
      Some (r :: rs, t'')
  end.

(** The fire attempts made before the first cancel attempt. *)
Fixpoint leading_fires (ops : list Attempt) : nat :=
  match ops with
  | Fire_attempt :: ops' => S (leading_fires ops')
  | _ => O
  end.

Definition cancels (ops : list Attempt) : list Attempt :=
  filter (λ a, is_fire a = false) ops.

(** The results of the cancel attempts of [ops] when the first one wins. *)
Definition first_wins (ops : list Attempt) : list bool :=
  match cancels ops with
  | [] => []
  | _ :: cs => true :: replicate (length cs) false
  end.

(** ** The states a wheel goes through *)

(** The wheel is built by the constructor and then used through
    [StartTimer], [StopTimer], fire attempts and reinitialisations of its
    entries, [SetPoolSize] and passes of [ThreadRun]. *)
Inductive reachable : Timer → Prop :=
  | reach_ctor fuel now Period precision t :
      Timer_ctor fuel now Period precision = Some t → reachable t
  | reach_StartTimer now dur cb t id t' :
      reachable t → StartTimer now dur cb t = Some (id, t') → reachable t'
  | reach_StopTimer id t r t' :
      reachable t → TimerId_StopTimer id t = Some (r, t') → reachable t'
  | reach_call this t t' :
      reachable t → Timer_call this t = Some t' → reachable t'
  | reach_init this cb t t' :
      reachable t → Timer_init this cb t = Some t' → reachable t'
  | reach_SetPoolSize min max t :
      reachable t → reachable (SetPoolSize min max t)
  | reach_ThreadRun now destPoints t :
      reachable t → reachable (ThreadRun_pass now t destPoints).2.

(** The shape the constructor gives the wheel: one cursor per level, 4
    slots at level 0 and 64 at every other level, cursors that are
    non-negative [int]s. *)
Record wheel_shape (t : Timer) : Prop := mkWheelShape {
  shape_points : length (points_ t) = length (slots_ t);
  shape_level0 : length <$> slots_ t !! 0%nat = Some 4%nat;
  shape_levels : ∀ l, (1 ≤ l < length (slots_ t))%nat →
                 length <$> slots_ t !! l = Some 64%nat;
  shape_cursor : ∀ l p, points_ t !! l = Some p → 0 ≤ p < 2 ^ 31
}.

(** The invariant behind it: links and pooled entries are allocated and
    pairwise distinct, and no entry carries a back-reference. *)
Record wheel_inv (t : Timer) : Prop := mkWheelInv {
  inv_nodup : NoDup (links t ++ pool_ t);
  inv_alloc : ∀ x, x ∈ links t ++ pool_ t → (x < length (heap t))%nat;
  inv_slot : ∀ x e, heap t !! x = Some e → slot_ e = None
}.

End TimerF.

Arguments mkElement {F}.
Arguments cb_ {F}.
Arguments active_ {F}.
Arguments slot_ {F}.
Arguments mkFire {F}.
Arguments fire_this {F}.
Arguments fire_cb {F}.
Arguments fire_slot {F}.
Arguments fire_gate {F}.
Arguments minPoolSize_ {F}.
Arguments maxPoolSize_ {F}.
Arguments mkTimer {F}.
Arguments heap {F}.
Arguments fired {F}.
Arguments pool_ {F}.
Arguments begin_ {F}.
Arguments precision_ {F}.
Arguments slots_ {F}.
Arguments points_ {F}.
Arguments last_ {F}.
Arguments Element_init {F}.
Arguments Element_call_body {F}.
Arguments unique_lock_release {F}.
Arguments Element_call {F}.
Arguments Element_cancel {F}.
Arguments Element_isValid {F}.
Arguments Timer_ctor {F}.
Arguments SetPoolSize {F}.
Arguments NewElement {F}.
Arguments StartTimer_durVal {F}.
Arguments StartTimer {F}.
Arguments Timer_cancel {F}.
Arguments Timer_StopTimer {F}.
Arguments TimerId_StopTimer {F}.
Arguments Timer_call {F}.
Arguments Timer_init {F}.
Arguments ThreadRun_pass {F}.
Arguments ThreadRun_passes {F}.
Arguments ThreadRun {F}.
Arguments slot_at {F}.
Arguments links {F}.
Arguments link_count {F}.
Arguments slot_ref_ok {F}.
Arguments executions {F}.
Arguments gate {F}.
Arguments attempts {F}.
Arguments reachable {F}.
Arguments wheel_inv {F}.
Arguments wheel_shape {F}.
Arguments set_heap {F}.
Arguments set_fired {F}.
Arguments set_pool {F}.
Arguments set_slots {F}.

(** ** Digits of a tick count *)

(** The digit of [ticks] that level [level] stands for: level 0 holds the
    2-bit digit and every further level the next 6-bit digit. *)
Definition level_digit (level : nat) (ticks : Z) : Z :=
  match level with
  | O => ticks `mod` 4
  | S n => (ticks `div` (4 * 64 ^ Z.of_nat n)) `mod` 64
  end.

(** The level of the most significant nonzero 6-bit digit of [rest], the
    tick count without its 2-bit digit ([rest > 0]). *)
Definition top_level (rest : Z) : nat := S (Z.to_nat (Z.log2 rest `div` 6)).

(** The level [StartTimer] places the unsigned tick count [durVal] at, in a
    wheel of [size] levels. *)
Definition place_level (size : nat) (durVal : Z) : nat :=
  if durVal `div` 4 =? 0 then 0%nat
  else top_level (durVal `div` 4) `min` (size - 1).

(** The number of slots of a level. *)
Definition level_size (level : nat) : Z :=
  match level with O => s_gear1 | S _ => s_gear end.

(** ** Concrete wheels *)

Definition nanoseconds : Z * Z := (1, 1000000000).

(** A wheel with a precision of 1 ns, built at time 0; callbacks are
    numbers. *)
Definition wheel_1ns : option (Timer nat) :=
  Timer_ctor nanoseconds 16 0 nanoseconds 1.

(** The same wheel after [StartTimer(1ns, 7)] at time 0. *)
Definition wheel_armed : option (TimerId * Timer nat) :=
  wheel_1ns ≫= StartTimer 0%nat 0 1 7%nat.

(** That wheel, as a value: 11 levels, all slots empty, all cursors 0. *)
Definition wheel0 : Timer nat :=
  mkTimer [] [] 0 0 [] 0 1 (resize_slots 11) (replicate 11 0) 0.

(** [wheel0] after [StartTimer(1ns, 7)] at time 0: one entry, at address
    0, with an open gate, linked into slot 1 of level 0. *)
Definition wheel1 : Timer nat :=
  mkTimer [mkElement 7%nat false None] [] 0 0 [] 0 1
          (alter (alter (TSQueue_push 0%nat) 1%nat) 0%nat (resize_slots 11))
          (replicate 11 0) 0.

(** The handle [StartTimer] returned for that entry. *)
Definition handle0 : TimerId := mkTimerId (Some 0%nat) true.

(** ** The wheel used through the class alone *)

Section Driven.

Context {F : Type} (F_default : F) (ClockPeriod : Z * Z).

(** The states the wheel goes through when only the members of the class
    run: the constructor, [StartTimer], [StopTimer], [SetPoolSize] and the
    passes of [ThreadRun].  No member of the class calls [Element::call]. *)
Inductive driven : Timer F → Prop :=
  | driven_ctor fuel now Period precision t :
      Timer_ctor ClockPeriod fuel now Period precision = Some t → driven t
  | driven_StartTimer now dur cb t id t' :
      driven t → StartTimer F_default now dur cb t = Some (id, t') → driven t'
  | driven_StopTimer id t r t' :
      driven t → TimerId_StopTimer id t = Some (r, t') → driven t'
  | driven_SetPoolSize min max t :
      driven t → driven (SetPoolSize min max t)
  | driven_ThreadRun now destPoints t :
      driven t → driven (ThreadRun_pass now t destPoints).2.

End Driven.

(** ** The constructor over a [Rep] with limits *)

(** What a computation of the source comes to: it returns a value, or it
    stops being defined (a signed overflow), or it is still running when
    the fuel is used up. *)
Inductive Outcome (A : Type) : Type :=
  | Returns (a : A)
  | Undefined
  | Running.

Arguments Returns {A} a.
Arguments Undefined {A}.
Arguments Running {A}.

(** The limits of the representation [Rep] of a duration,
    [(numeric_limits<Rep>::min(), numeric_limits<Rep>::max())]; for
    [timeRange] it is the common type of [Rep] and [int]. *)
Definition int32_limits : Z * Z := (- 2 ^ 31, 2 ^ 31 - 1).
Definition int64_limits : Z * Z := (- 2 ^ 63, 2 ^ 63 - 1).

Definition in_Rep (Rep : Z * Z) (x : Z) : bool :=
  (Rep.1 <=? x) && (x <=? Rep.2).

(** [numeric_limits<int>::max()], for the counter [level]. *)
Definition int_max : Z := 2 ^ 31 - 1.

(** The level-counting loop with [timeRange] held in [Rep] and [level] in
    an [int]: [timeRange *= s_gear] is undefined when the product leaves
    [Rep], and so is [level++] at [int_max]. *)
Fixpoint Timer_levels_Rep (Rep : Z * Z) (fuel : nat) (Period : Z * Z)
    (timeRange : Z) (level : nat) : Outcome nat :=
  match fuel with
  | O => Running
  | S fuel' =>
      if le_years4 Period timeRange
      then
        if in_Rep Rep (timeRange * s_gear) && (Z.of_nat level <? int_max)
        then Timer_levels_Rep Rep fuel' Period (timeRange * s_gear) (S level)
        else Undefined
      else Returns level
  end.

Section CtorRep.

Context {F : Type} (ClockPeriod : Z * Z).

(** The constructor with [precision * s_gear1] and [timeRange] held in
    [Rep]. *)
Definition Timer_ctor_Rep (Rep : Z * Z) (fuel : nat) (now : Z)
    (Period : Z * Z) (precision : Z) : Outcome (Timer F) :=
  if in_Rep Rep (precision * s_gear1) then
    match Timer_levels_Rep Rep fuel Period (precision * s_gear1) 1 with
    | Returns level =>
        Returns (mkTimer [] [] 0 0 [] now
                   (duration_cast Period ClockPeriod precision)
                   (resize_slots level) (replicate level 0) now)
    | Undefined => Undefined
    | Running => Running
    end
  else Undefined.

End CtorRep.

Definition milliseconds : Z * Z := (1, 1000).

(** ** Tick counts from digits *)

(** The number whose 6-bit digits, least significant first, are [ds]. *)
Fixpoint from_digits (ds : list Z) : Z :=
  match ds with
  | [] => 0
  | d :: ds' => d + s_gear * from_digits ds'
  end.

(** The tick count a vector of destination points stands for: a 2-bit
    digit followed by 6-bit digits. *)
Definition from_destPoints (ds : list Z) : Z :=
  match ds with
  | [] => 0
  | d0 :: ds' => d0 + s_gear1 * from_digits ds'
  end.

(** The number of ticks a wheel of [levels] levels tells apart. *)
Definition horizon (levels : nat) : Z := 4 * 64 ^ (Z.of_nat levels - 1).

(** A wheel with a precision of 2 years, built at time 0: one level. *)
Definition years : Z * Z := (31556952, 1).

Definition wheel_2years : Timer nat :=
  mkTimer [] [] 0 0 [] 0 63113904000000000 (resize_slots 1) (replicate 1 0) 0.

(** A wheel with a precision of 1000 ns, built at time 0: 9 levels. *)
Definition wheel_1us : Timer nat :=
  mkTimer [] [] 0 0 [] 0 1000 (resize_slots 9) (replicate 9 0) 0.

(** [wheel1] after a successful [StopTimer] through [handle0]. *)
Definition wheel1_cancelled : Timer nat :=
  mkTimer [mkElement 7%nat true None] [] 0 0 [] 0 1
          (alter (alter (TSQueue_push 0%nat) 1%nat) 0%nat (resize_slots 11))
          (replicate 11 0) 0.

(** * Properties *)

Section Entry.

Context {F : Type}.
Implicit Types (e : Element F) (t : Timer F) (this : nat) (cb : F).

(** ** [Element::init] *)

(** [init] stores the callback and clears the back-reference; the
    lock-then-unlock on the gate undoes itself when the gate is open and
    does not happen when it is held, so the gate is as it was. *)
Lemma Element_init_eq cb e :
  Element_init cb e = mkElement cb (active_ e) None.
Proof. destruct e as [c [] s]; reflexivity. Qed.

(** ** [Element::call] *)

Lemma Element_call_body_open this e :
  active_ e = false →
  Element_call_body this e =
    (true, mkElement (cb_ e) true None, [mkFire this (cb_ e) None true]).
Proof. destruct e as [c a s]; simpl; intros ->; reflexivity. Qed.

Lemma Element_call_body_held this e :
  active_ e = true → Element_call_body this e = (false, e, []).
Proof. destruct e as [c a s]; simpl; intros ->; reflexivity. Qed.

Lemma Element_call_open this e :
  active_ e = false →
  Element_call this e =
    (mkElement (cb_ e) false None, [mkFire this (cb_ e) None true]).
Proof.
  intros Ha. unfold Element_call. by rewrite Element_call_body_open.
Qed.

Lemma Element_call_held this e :
  active_ e = true → Element_call this e = (e, []).
Proof.
  intros Ha. unfold Element_call. by rewrite Element_call_body_held.
Qed.

(** ** [Element::cancel] *)

Lemma Element_cancel_open this e slots :
  active_ e = false →
  Element_cancel this e slots =
    (true, mkElement (cb_ e) true (slot_ e),
     match slot_ e with
     | Some r => Slot_erase r this slots
     | None => slots
     end).
Proof.
  destruct e as [c a s]; simpl; intros ->. unfold Element_cancel; simpl.
  by destruct s.
Qed.

Lemma Element_cancel_held this e slots :
  active_ e = true → Element_cancel this e slots = (false, e, slots).
Proof. destruct e as [c a s]; simpl; intros ->; reflexivity. Qed.

(** While a callback runs (the body of [call] is past [cb_()] and [lock] is
    still in scope) the gate is held: a cancel attempt made then fails and
    changes nothing, and a second fire attempt runs nothing. *)
Lemma cancel_while_firing this e slots :
  active_ e = false →
  let e1 := (Element_call_body this e).1.2 in
  Element_cancel this e1 slots = (false, e1, slots) ∧
  Element_call this e1 = (e1, []).
Proof.
  intros Ha. rewrite Element_call_body_open by done. simpl. done.
Qed.

(** C10.  A fire attempt that finds the gate open acquires it, clears the
    back-reference, and only then runs the callback: the one execution it
    logs saw a null back-reference and a held gate.  A fire attempt that
    finds the gate held runs no callback and leaves the entry, its
    back-reference included, as it was. *)
Theorem Element_call_unlinks_first this e :
  Element_call_body this e =
    (if active_ e then (false, e, [])
     else (true, mkElement (cb_ e) true None,
           [mkFire this (cb_ e) None true])) ∧
  Element_call this e =
    (if active_ e then (e, [])
     else (mkElement (cb_ e) false None, [mkFire this (cb_ e) None true])).
Proof.
  destruct (active_ e) eqn:Ha.
  - by rewrite Element_call_body_held, Element_call_held.
  - by rewrite Element_call_body_open, Element_call_open.
Qed.

(** Reinitialisation stores the new callback and clears the
    back-reference, and leaves the gate in the state it found it in: open
    if it was open, held if it was held. *)
Lemma Element_init_keeps_gate cb e :
  cb_ (Element_init cb e) = cb ∧
  slot_ (Element_init cb e) = None ∧
  active_ (Element_init cb e) = active_ e.
Proof. by rewrite Element_init_eq. Qed.

End Entry.

Section Gate.

Context {F : Type}.
Implicit Types (e : Element F) (t : Timer F) (this : nat) (cb : F).

(** ** Fire and cancel attempts against the heap of the wheel *)

(** Altering one slot changes the queue of that slot and of no other. *)
Lemma slot_at_alter (f : TSQueue → TSQueue) (r r' : SlotRef) t t' :
  slots_ t' = alter (alter f r.2) r.1 (slots_ t) →
  slot_at r' t' = if decide (r' = r) then f <$> slot_at r t else slot_at r' t.
Proof.
  intros Hs. destruct r as [l i], r' as [l' i']. unfold slot_at.
  rewrite Hs. simpl.
  destruct (decide (l' = l)) as [-> | Hl].
  - rewrite list_lookup_alter_eq.
    destruct (slots_ t !! l) as [wheel|] eqn:Hw; simpl.
    + destruct (decide (i' = i)) as [-> | Hi].
      * rewrite decide_True by done. by rewrite list_lookup_alter_eq.
      * rewrite decide_False by congruence. by rewrite list_lookup_alter_ne.
    + by destruct (decide _).
  - rewrite decide_False by congruence.
    by rewrite list_lookup_alter_ne.
Qed.


Lemma Timer_call_open this t e :
  heap t !! this = Some e → active_ e = false →
  Timer_call this t =
    Some (set_fired (fired t ++ [mkFire this (cb_ e) None true])
            (set_heap (<[this := mkElement (cb_ e) false None]> (heap t)) t)).
Proof.
  intros He Ha. unfold Timer_call. rewrite He. simpl.
  by rewrite Element_call_open.
Qed.

Lemma Timer_call_held this t e :
  heap t !! this = Some e → active_ e = true → Timer_call this t = Some t.
Proof.
  intros He Ha. unfold Timer_call. rewrite He. simpl.
  rewrite Element_call_held by done.
  rewrite list_insert_id by done. rewrite app_nil_r.
  by destruct t.
Qed.

Lemma Timer_cancel_open this t e :
  heap t !! this = Some e → active_ e = false →
  Timer_cancel this t =
    Some (true,
          set_slots (match slot_ e with
                     | Some r => Slot_erase r this (slots_ t)
                     | None => slots_ t
                     end)
            (set_heap (<[this := mkElement (cb_ e) true (slot_ e)]> (heap t)) t)).
Proof.
  intros He Ha. unfold Timer_cancel. rewrite He. simpl.
  by rewrite Element_cancel_open.
Qed.

Lemma Timer_cancel_held this t e :
  heap t !! this = Some e → active_ e = true →
  Timer_cancel this t = Some (false, t).
Proof.
  intros He Ha. unfold Timer_cancel. rewrite He. simpl.
  rewrite Element_cancel_held by done.
  rewrite list_insert_id by done. by destruct t.
Qed.

(** Once the gate is held between two attempts it stays held: every later
    fire attempt runs nothing, every later cancel attempt fails, and the
    wheel does not change. *)
Lemma attempts_held this ops t e :
  heap t !! this = Some e → active_ e = true →
  attempts this ops t = Some (replicate (length (cancels ops)) false, t).
Proof.
  intros He Ha. induction ops as [|[] ops IH]; simpl.
  - done.
  - rewrite (Timer_call_held this t e) by done. simpl. exact IH.
  - rewrite (Timer_cancel_held this t e) by done. simpl. rewrite IH.
    done.
Qed.

Lemma first_wins_fire ops : first_wins (Fire_attempt :: ops) = first_wins ops.
Proof. reflexivity. Qed.

Lemma first_wins_cancel ops :
  first_wins (Cancel_attempt :: ops) =
    true :: replicate (length (cancels ops)) false.
Proof. reflexivity. Qed.

Lemma filter_true_replicate_false n :
  filter (λ r : bool, r = true) (replicate n false) = [].
Proof.
  induction n as [|n IH]; [done|].
  change (replicate (S n) false) with (false :: replicate n false).
  by rewrite filter_cons_False.
Qed.

(** At most one of the cancel attempts succeeds. *)
Lemma first_wins_once ops :
  (length (filter (λ r, r = true) (first_wins ops)) ≤ 1)%nat.
Proof.
  unfold first_wins. destruct (cancels ops) as [|c cs]; [simpl; lia|].
  rewrite filter_cons_True by done.
  rewrite filter_true_replicate_false. simpl. lia.
Qed.

(** From an open gate: every fire attempt made before the first cancel
    attempt runs the callback and hands the gate back; the first cancel
    attempt wins and keeps the gate. *)
Lemma attempts_open this ops : ∀ t e,
  heap t !! this = Some e → active_ e = false →
  ∃ t', attempts this ops t = Some (first_wins ops, t') ∧
    fired t' = fired t ++
      replicate (leading_fires ops) (mkFire this (cb_ e) None true) ∧
    gate this t' = Some (bool_decide (cancels ops ≠ [])).
Proof.
  induction ops as [|[] ops IH]; intros t e He Ha.
  - exists t. simpl. rewrite app_nil_r. unfold gate. rewrite He. simpl.
    rewrite Ha. done.
  - simpl. rewrite (Timer_call_open this t e) by done. simpl.
    pose proof (lookup_lt_Some _ _ _ He) as Hl.
    set (t1 := set_fired _ _).
    destruct (IH t1 (mkElement (cb_ e) false None)) as (t' & Hr & Hf & Hg).
    { subst t1. simpl. by apply list_lookup_insert_eq. }
    { done. }
    exists t'. rewrite first_wins_fire. split; [done|]. split; [|done].
    rewrite Hf. subst t1. simpl. by rewrite <- app_assoc.
  - simpl. rewrite (Timer_cancel_open this t e) by done. simpl.
    pose proof (lookup_lt_Some _ _ _ He) as Hl.
    set (t1 := set_slots _ _).
    assert (heap t1 !! this = Some (mkElement (cb_ e) true (slot_ e))) as He1.
    { subst t1. simpl. by apply list_lookup_insert_eq. }
    rewrite (attempts_held this ops t1 _ He1) by done. simpl.
    exists t1. rewrite first_wins_cancel. split; [done|].
    split.
    + subst t1. simpl. by rewrite app_nil_r.
    + unfold gate. rewrite He1. simpl. done.
Qed.

Lemma filter_replicate_this this (c : F) n :
  filter (λ f, fire_this f = this) (replicate n (mkFire this c None true)) =
    replicate n (mkFire this c None true).
Proof.
  induction n as [|n IH]; [done|].
  change (replicate (S n) (mkFire this c None true))
    with (mkFire this c None true :: replicate n (mkFire this c None true)).
  rewrite filter_cons_True by done. by rewrite IH.
Qed.

(** Nothing that comes after a cancel attempt counts as a leading fire. *)
Lemma leading_fires_cancel ops1 ops2 :
  (leading_fires (ops1 ++ Cancel_attempt :: ops2) ≤ length ops1)%nat.
Proof. induction ops1 as [|[] ops1 IH]; simpl; lia. Qed.

(** C1 (as the code has it).  Over any sequence of fire and cancel attempts
    on an entry: while the gate is open every fire attempt runs the
    callback once and hands the gate back as it returns, so the callback
    runs once per fire attempt made before the first cancel attempt; the
    first cancel attempt that finds the gate open wins, and from then on
    the gate is held for good, no fire attempt runs the callback and every
    cancel attempt fails.  So at most one cancel attempt returns true, and
    the callback is not run after it. *)
Theorem gate_over_attempts this ops t e :
  heap t !! this = Some e →
  ∃ rs t', attempts this ops t = Some (rs, t') ∧
    rs = (if active_ e then replicate (length (cancels ops)) false
          else first_wins ops) ∧
    (length (filter (λ r, r = true) rs) ≤ 1)%nat ∧
    fired t' = fired t ++
      (if active_ e then []
       else replicate (leading_fires ops) (mkFire this (cb_ e) None true)) ∧
    executions this t' =
      (executions this t + if active_ e then 0 else leading_fires ops)%nat ∧
    gate this t' = Some (active_ e || bool_decide (cancels ops ≠ [])).
Proof.
  intros He. destruct (active_ e) eqn:Ha.
  - exists (replicate (length (cancels ops)) false), t.
    rewrite (attempts_held this ops t e) by done.
    rewrite filter_true_replicate_false, app_nil_r.
    unfold gate. rewrite He. simpl. rewrite Ha.
    repeat split; [lia | lia].
  - destruct (attempts_open this ops t e He Ha) as (t' & Hr & Hf & Hg).
    exists (first_wins ops), t'. repeat split; try done.
    + apply first_wins_once.
    + unfold executions. rewrite Hf, list.filter_app, length_app.
      by rewrite filter_replicate_this, length_replicate.
Qed.

(** C4 (as the code has it).  [StopTimer] on an empty handle answers true
    and does nothing.  On a handle to an entry it answers true exactly when
    it finds the gate open: it then holds the gate, erases the entry from
    the slot its back-reference names if it names one, and from then on no
    fire attempt runs the callback and no cancel attempt succeeds.  It
    answers false exactly when it finds the gate held, and then changes
    nothing. *)
Theorem StopTimer_outcome (id : TimerId) t :
  match elem_ id, timer_ id with
  | Some this, true =>
      match heap t !! this with
      | Some e =>
          if active_ e then TimerId_StopTimer id t = Some (false, t)
          else
            ∃ t', TimerId_StopTimer id t = Some (true, t') ∧
              heap t' = <[this := mkElement (cb_ e) true (slot_ e)]> (heap t) ∧
              slots_ t' = match slot_ e with
                          | Some r => Slot_erase r this (slots_ t)
                          | None => slots_ t
                          end ∧
              (∀ r, slot_ e = Some r →
                 slot_at r t' = TSQueue_erase this <$> slot_at r t ∧
                 ∀ q, slot_at r t' = Some q → this ∉ q) ∧
              fired t' = fired t ∧
              ∀ ops, attempts this ops t' =
                       Some (replicate (length (cancels ops)) false, t')
      | None => TimerId_StopTimer id t = None
      end
  | _, _ => TimerId_StopTimer id t = Some (true, t)
  end.
Proof.
  destruct id as [[this|] []]; simpl; try done.
  unfold TimerId_StopTimer, Timer_StopTimer, TimerId_bool. simpl.
  destruct (heap t !! this) as [e|] eqn:He.
  - destruct (active_ e) eqn:Ha.
    + by apply Timer_cancel_held with e.
    + rewrite (Timer_cancel_open this t e) by done.
      eexists. split; [done|]. simpl. split; [done|]. split; [done|].
      split; [|split; [done|]].
      * intros r Hr. rewrite Hr.
        set (t' := set_slots _ _).
        assert (slot_at r t' = TSQueue_erase this <$> slot_at r t) as Hq.
        { rewrite (slot_at_alter (TSQueue_erase this) r r t t') by done.
          by rewrite decide_True. }
        split; [done|]. intros q. rewrite Hq.
        destruct (slot_at r t) as [q0|]; [|done]. simpl. intros [= <-].
        unfold TSQueue_erase. rewrite list_elem_of_filter. tauto.
      * intros ops. eapply attempts_held; simpl.
        -- apply list_lookup_insert_eq. by eapply lookup_lt_Some.
        -- done.
  - unfold Timer_cancel. by rewrite He.
Qed.

End Gate.

Section Constructor.

Context {F : Type}.
Implicit Types (t : Timer F).

(** ** The constructor *)

(** The level-counting loop stops as soon as the range exceeds four years;
    it has then multiplied the range by 64 once per level it added. *)
Lemma Timer_levels_stops (Period : Z * Z) (n : nat) :
  0 < Period.1 →
  ∀ timeRange level,
    0 < timeRange →
    years4_seconds * Period.2 < timeRange * 64 ^ Z.of_nat n * Period.1 →
    ∃ k : nat, (k ≤ n)%nat ∧
      (∀ fuel, (k < fuel)%nat →
         Timer_levels fuel Period timeRange level = Some (level + k)%nat) ∧
      years4_seconds * Period.2 < timeRange * 64 ^ Z.of_nat k * Period.1 ∧
      (k = 0%nat ∨
       timeRange * 64 ^ (Z.of_nat k - 1) * Period.1 ≤ years4_seconds * Period.2).
Proof.
  intros Hnum. induction n as [|n IH]; intros timeRange level Hpos Hbig.
  - exists 0%nat. split; [lia|]. split; [|split; [done | by left]].
    intros [|fuel] Hf; [lia|]. simpl. unfold le_years4.
    change (64 ^ Z.of_nat 0) with 1 in Hbig.
    rewrite (proj2 (Z.leb_gt _ _)) by lia. f_equal. lia.
  - destruct (le_years4 Period timeRange) eqn:Hle.
    + unfold le_years4 in Hle. apply Z.leb_le in Hle.
      destruct (IH (timeRange * s_gear) (S level)) as (k & Hk & Hrun & Hgt & Hmin).
      { unfold s_gear. lia. }
      { rewrite Nat2Z.inj_succ, Z.pow_succ_r in Hbig by lia.
        unfold s_gear. lia. }
      exists (S k). split; [lia|]. split; [|split].
      * intros [|fuel] Hf; [lia|]. simpl. unfold le_years4.
        rewrite (proj2 (Z.leb_le _ _)) by lia.
        rewrite Hrun by lia. f_equal. lia.
      * rewrite Nat2Z.inj_succ, Z.pow_succ_r by lia.
        unfold s_gear in Hgt. lia.
      * right. replace (Z.of_nat (S k) - 1) with (Z.of_nat k) by lia.
        destruct k as [|k'].
        -- change (64 ^ Z.of_nat 0) with 1. lia.
        -- destruct Hmin as [? | Hmin]; [lia|].
           replace (Z.of_nat (S k')) with (Z.succ (Z.of_nat (S k') - 1)) at 1 by lia.
           rewrite Z.pow_succ_r by lia. unfold s_gear in Hmin. lia.
    + unfold le_years4 in Hle. apply Z.leb_gt in Hle.
      exists 0%nat. split; [lia|]. split; [|split; [|by left]].
      * intros [|fuel] Hf; [lia|]. simpl. unfold le_years4.
        rewrite (proj2 (Z.leb_gt _ _)) by lia. f_equal. lia.
      * change (64 ^ Z.of_nat 0) with 1. lia.
Qed.

(** Some power of 64 exceeds any bound. *)
Lemma pow64_exceeds (B : Z) :
  0 ≤ B → B < 64 ^ Z.of_nat (S (Z.to_nat (Z.log2 B))).
Proof.
  intros HB. rewrite Nat2Z.inj_succ, Z2Nat.id by apply Z.log2_nonneg.
  destruct (Z.eq_dec B 0) as [-> | Hne].
  - simpl. lia.
  - pose proof (Z.log2_spec B ltac:(lia)) as [_ Hlt].
    eapply Z.lt_le_trans; [exact Hlt|].
    apply Z.pow_le_mono_l. lia.
Qed.

Lemma lookup_resize_slots_0 (level : nat) :
  (1 ≤ level)%nat → length <$> resize_slots level !! 0%nat = Some 4%nat.
Proof. destruct level; [lia|]. reflexivity. Qed.

Lemma lookup_resize_slots_S (level l : nat) :
  (1 ≤ l < level)%nat → length <$> resize_slots level !! l = Some 64%nat.
Proof.
  intros Hl. destruct level as [|n]; [lia|]. destruct l as [|l]; [lia|].
  simpl. rewrite lookup_replicate_2 by lia. reflexivity.
Qed.

Lemma length_resize_slots (level : nat) : length (resize_slots level) = level.
Proof. destruct level; simpl; [done|]. by rewrite length_replicate. Qed.

Lemma concat_replicate_nil {A} (n : nat) :
  concat (replicate n ([] : list A)) = [].
Proof. induction n as [|n IH]; [done|]. exact IH. Qed.

(** Every queue of a freshly built wheel is empty. *)
Lemma links_resize_slots (level : nat) : concat (concat (resize_slots level)) = [].
Proof.
  destruct level as [|n]; [done|]. unfold resize_slots.
  change (concat (?x :: ?l)) with (x ++ concat l).
  rewrite concat_app, concat_replicate_nil. simpl.
  induction n as [|n IH]; [done|].
  change (replicate (S n) ?x) with (x :: replicate n x).
  change (concat (?x :: ?l)) with (x ++ concat l).
  rewrite concat_app, IH. reflexivity.
Qed.

(** With [timeRange] an integer: for a positive precision the
    constructor returns; the wheel it builds has 4 slots at level 0 and 64 slots at every further level, one
    cursor per level, and a number of levels [L] for which the horizon
    [precision * 4 * 64^(L-1)] exceeds four years; [L] is the least such
    number. *)
Theorem Timer_ctor_levels (ClockPeriod : Z * Z) (now : Z) (Period : Z * Z)
    (precision : Z) :
  0 < precision → 0 < Period.1 → 0 < Period.2 →
  ∃ (fuel0 : nat) (t : Timer F),
    (∀ fuel, (fuel0 ≤ fuel)%nat →
       Timer_ctor ClockPeriod fuel now Period precision = Some t) ∧
    let L := length (slots_ t) in
    (1 ≤ L)%nat ∧ length (points_ t) = L ∧
    length <$> slots_ t !! 0%nat = Some 4%nat ∧
    (∀ l, (1 ≤ l < L)%nat → length <$> slots_ t !! l = Some 64%nat) ∧
    years4_seconds * Period.2 <
      precision * 4 * 64 ^ (Z.of_nat L - 1) * Period.1 ∧
    (L = 1%nat ∨
     precision * 4 * 64 ^ (Z.of_nat L - 2) * Period.1 ≤
       years4_seconds * Period.2).
Proof.
  intros Hp Hnum Hden.
  set (B := years4_seconds * Period.2).
  assert (0 ≤ B) as HB by (unfold B, years4_seconds; lia).
  set (n := S (Z.to_nat (Z.log2 B))).
  destruct (Timer_levels_stops Period n Hnum (precision * s_gear1) 1%nat)
    as (k & Hk & Hrun & Hgt & Hmin).
  { unfold s_gear1. lia. }
  { fold B. pose proof (pow64_exceeds B HB) as Hpow. fold n in Hpow.
    unfold s_gear1.
    assert (1 ≤ precision * 4 * Period.1) as H1 by nia.
    assert (64 ^ Z.of_nat n * 1 ≤ 64 ^ Z.of_nat n * (precision * 4 * Period.1))
      as H2 by (apply Z.mul_le_mono_nonneg_l; lia).
    lia. }
  exists (S k),
    (mkTimer [] [] 0 0 [] now (duration_cast Period ClockPeriod precision)
             (resize_slots (1 + k)) (replicate (1 + k) 0) now).
  split.
  { intros fuel Hf. unfold Timer_ctor. rewrite Hrun by lia. reflexivity. }
  cbn [slots_ points_]. cbv zeta.
  rewrite length_resize_slots, length_replicate.
  split; [lia|]. split; [done|].
  split; [apply lookup_resize_slots_0; lia|].
  split; [intros l Hl; apply lookup_resize_slots_S; lia|].
  fold B in Hgt, Hmin. fold B. unfold s_gear1 in *.
  replace (Z.of_nat (1 + k) - 1) with (Z.of_nat k) by lia.
  replace (Z.of_nat (1 + k) - 2) with (Z.of_nat k - 1) by lia.
  split; [exact Hgt|].
  destruct Hmin as [-> | Hmin]; [by left | by right].
Qed.

(** A precision that is not positive keeps the level-counting loop running
    for ever. *)
Lemma Timer_levels_diverges (Period : Z * Z) (fuel : nat) :
  0 < Period.1 → 0 < Period.2 →
  ∀ timeRange level, timeRange ≤ 0 →
    Timer_levels fuel Period timeRange level = None.
Proof.
  intros Hnum Hden. induction fuel as [|fuel IH]; intros timeRange level Hle.
  - done.
  - simpl. unfold le_years4.
    rewrite (proj2 (Z.leb_le _ _)) by (unfold years4_seconds; nia).
    apply IH. unfold s_gear. lia.
Qed.

End Constructor.

(** ** Digits: shifts and masks against division and remainder *)

Lemma land_gear1 (d : Z) : Z.land d (s_gear1 - 1) = d `mod` 4.
Proof. change (s_gear1 - 1) with (Z.ones 2). by rewrite Z.land_ones. Qed.

Lemma land_gear (d : Z) : Z.land d (s_gear - 1) = d `mod` 64.
Proof. change (s_gear - 1) with (Z.ones 6). by rewrite Z.land_ones. Qed.

Lemma shiftr_gear1 (d : Z) : d ≫ s_gear1Shift = d `div` 4.
Proof. unfold s_gear1Shift. by rewrite Z.shiftr_div_pow2. Qed.

Lemma shiftr_gears (d : Z) (n : nat) :
  d ≫ (6 * Z.of_nat n) = d `div` 64 ^ Z.of_nat n.
Proof.
  rewrite Z.shiftr_div_pow2 by lia. f_equal.
  rewrite Z.pow_mul_r by lia. reflexivity.
Qed.

Lemma shiftr_gear_succ (d : Z) (n : nat) :
  (d ≫ (6 * Z.of_nat n)) ≫ s_gearShift = d ≫ (6 * Z.of_nat (S n)).
Proof.
  unfold s_gearShift. rewrite Z.shiftr_shiftr by lia. f_equal. lia.
Qed.

(** The digit of a level, from the tick count without its 2-bit digit. *)
Lemma level_digit_succ (n : nat) (ticks : Z) :
  level_digit (S n) ticks = ((ticks `div` 4) ≫ (6 * Z.of_nat n)) `mod` 64.
Proof.
  unfold level_digit. rewrite shiftr_gears.
  rewrite Z.div_div by lia. reflexivity.
Qed.

Lemma level_digit_bound (level : nat) (ticks : Z) :
  0 ≤ level_digit level ticks < level_size level.
Proof.
  destruct level; unfold level_digit, level_size, s_gear1, s_gear;
    apply Z.mod_pos_bound; lia.
Qed.

(** A positive [rest] still has a nonzero part from 6-bit digit [k] on
    exactly when [k] is below its top level. *)
Lemma shiftr_pos_top_level (rest : Z) (k : nat) :
  0 < rest → (0 < rest ≫ (6 * Z.of_nat k) ↔ (k < top_level rest)%nat).
Proof.
  intros Hr. unfold top_level.
  pose proof (Z.log2_nonneg rest) as Hl.
  rewrite Z.shiftr_div_pow2 by lia.
  assert (0 < rest `div` 2 ^ (6 * Z.of_nat k) ↔ 2 ^ (6 * Z.of_nat k) ≤ rest)
    as ->.
  { assert (0 < 2 ^ (6 * Z.of_nat k)) as Hpow by (apply Z.pow_pos_nonneg; lia).
    split; intros H.
    - destruct (Z.le_gt_cases (2 ^ (6 * Z.of_nat k)) rest) as [|Hlt]; [done|].
      rewrite Z.div_small in H by lia. lia.
    - apply Z.div_str_pos. lia. }
  rewrite Z.log2_le_pow2 by lia.
  assert (0 ≤ Z.log2 rest `div` 6) as Hq by (apply Z.div_pos; lia).
  split; intros Hk0.
  - assert (Z.of_nat k ≤ Z.log2 rest `div` 6)
      by (apply Z.div_le_lower_bound; lia).
    lia.
  - assert (Z.of_nat k ≤ Z.log2 rest `div` 6) as Hk by lia.
    pose proof (Z.mul_div_le (Z.log2 rest) 6 ltac:(lia)). lia.
Qed.

(** The top level carries a nonzero digit, and every level above it a zero
    digit: it is the level of the most significant nonzero digit. *)
Lemma top_level_digit (ticks : Z) :
  0 < ticks `div` 4 →
  level_digit (top_level (ticks `div` 4)) ticks ≠ 0 ∧
  ∀ l, (top_level (ticks `div` 4) < l)%nat → level_digit l ticks = 0.
Proof.
  intros Hr. set (rest := ticks `div` 4) in *.
  assert (∀ k : nat, (top_level rest ≤ k)%nat → rest ≫ (6 * Z.of_nat k) = 0)
    as Hzero.
  { intros k Hk. pose proof (shiftr_pos_top_level rest k Hr) as Hiff.
    assert (0 ≤ rest ≫ (6 * Z.of_nat k)) by (apply Z.shiftr_nonneg; lia).
    destruct (Z.eq_dec (rest ≫ (6 * Z.of_nat k)) 0) as [|Hne]; [done|].
    assert (k < top_level rest)%nat by (apply Hiff; lia). lia. }
  split.
  - unfold top_level at 1. fold rest.
    set (n := Z.to_nat (Z.log2 rest `div` 6)).
    rewrite level_digit_succ. fold rest.
    assert (0 < rest ≫ (6 * Z.of_nat n)) as Hpos.
    { apply shiftr_pos_top_level; [done|]. unfold top_level. fold n. lia. }
    assert (rest ≫ (6 * Z.of_nat (S n)) = 0) as Hz.
    { apply Hzero. unfold top_level. fold n. lia. }
    rewrite <- shiftr_gear_succ in Hz. unfold s_gearShift in Hz.
    rewrite Z.shiftr_div_pow2 in Hz by lia. change (2 ^ 6) with 64 in Hz.
    intros Hmod.
    pose proof (Z.div_mod (rest ≫ (6 * Z.of_nat n)) 64 ltac:(lia)). lia.
  - intros [|l] Hl; [pose proof (top_level rest); unfold top_level in Hl; lia|].
    rewrite level_digit_succ. fold rest.
    rewrite Hzero; [done|]. lia.
Qed.

(** ** The level loop of [StartTimer] *)

Lemma StartTimer_while_spec (size : nat) (rest : Z) :
  0 < rest →
  ∀ fuel level,
    (1 ≤ level ≤ top_level rest `min` (size - 1))%nat →
    (top_level rest `min` (size - 1) - level < fuel)%nat →
    StartTimer_while fuel size level
      (rest ≫ (6 * Z.of_nat (level - 1))) (rest ≫ (6 * Z.of_nat level)) =
    Some (top_level rest `min` (size - 1),
          rest ≫ (6 * Z.of_nat (top_level rest `min` (size - 1) - 1)))%nat.
Proof.
  intros Hr. set (T := (top_level rest `min` (size - 1))%nat).
  induction fuel as [|fuel IH]; intros level Hlev Hfuel; [lia|].
  simpl. pose proof (shiftr_pos_top_level rest level Hr) as Hiff.
  destruct (decide (level < T)%nat) as [Hlt | Hge].
  - rewrite (proj2 (Z.ltb_lt _ _)) by (apply Hiff; lia).
    rewrite (proj2 (Nat.ltb_lt _ _)) by lia. simpl.
    rewrite shiftr_gear_succ.
    specialize (IH (S level) ltac:(lia) ltac:(lia)).
    replace (S level - 1)%nat with level in IH by lia. exact IH.
  - assert (level = T) as -> by lia.
    assert ((0 <? rest ≫ (6 * Z.of_nat T)) && (T + 1 <? size)%nat = false)
      as ->; [|done].
    apply andb_false_iff.
    destruct (decide (T = top_level rest)) as [HT | HT].
    + left. apply Z.ltb_ge.
      destruct (Z.lt_ge_cases 0 (rest ≫ (6 * Z.of_nat T))) as [Hp|]; [|lia].
      apply Hiff in Hp. lia.
    + right. apply Nat.ltb_ge. lia.
Qed.

Lemma StartTimer_place_spec (size : nat) (durVal : Z) :
  (2 ≤ size)%nat → 0 ≤ durVal →
  StartTimer_place size durVal =
    Some (place_level size durVal,
          level_digit (place_level size durVal) durVal).
Proof.
  intros Hsize Hd. unfold StartTimer_place, place_level.
  rewrite shiftr_gear1.
  destruct (durVal `div` 4 =? 0) eqn:Hz.
  - by rewrite land_gear1.
  - apply Z.eqb_neq in Hz.
    assert (0 < durVal `div` 4) as Hr.
    { pose proof (Z.div_pos durVal 4 Hd ltac:(lia)). lia. }
    set (rest := durVal `div` 4) in *.
    pose proof (StartTimer_while_spec size rest Hr size 1%nat) as Hw.
    change (6 * Z.of_nat (1 - 1)) with 0 in Hw.
    rewrite Z.shiftr_0_r in Hw.
    change (6 * Z.of_nat 1) with s_gearShift in Hw.
    set (T := (top_level rest `min` (size - 1))%nat) in *.
    assert (1 ≤ T)%nat as HT by (unfold T, top_level; lia).
    rewrite Hw by lia.
    unfold mbind, option_bind. cbv beta iota.
    rewrite land_gear. f_equal. f_equal.
    destruct T as [|n]; [lia|].
    rewrite level_digit_succ. fold rest.
    replace (S n - 1)%nat with n by lia. done.
Qed.

Lemma place_level_lt (size : nat) (durVal : Z) :
  (1 ≤ size)%nat → (place_level size durVal < size)%nat.
Proof. intros Hs. unfold place_level. destruct (_ =? _); lia. Qed.

(** ** Links of a wheel *)

Lemma concat_alter_push (a : nat) (wheel : list TSQueue) (i : nat) q :
  wheel !! i = Some q →
  concat (alter (TSQueue_push a) i wheel) ≡ₚ a :: concat wheel.
Proof.
  revert i. induction wheel as [|q0 wheel IH]; intros [|i] Hq; try done.
  - simpl in Hq. injection Hq as ->. simpl. unfold TSQueue_push.
    rewrite <- app_assoc. simpl. by rewrite <- Permutation_middle.
  - simpl in Hq. simpl. rewrite (IH i Hq). by rewrite <- Permutation_middle.
Qed.

Lemma concat_concat_alter (a : nat) (f : list TSQueue → list TSQueue)
    (slots : list (list TSQueue)) (level : nat) wheel :
  slots !! level = Some wheel →
  concat (f wheel) ≡ₚ a :: concat wheel →
  concat (concat (alter f level slots)) ≡ₚ a :: concat (concat slots).
Proof.
  revert level. induction slots as [|w0 slots IH]; intros [|level] Hw Hf;
    try done.
  - simpl in Hw. injection Hw as ->. simpl.
    rewrite !concat_app. by rewrite Hf.
  - simpl in Hw. simpl. rewrite !concat_app.
    rewrite (IH level Hw Hf). by rewrite <- Permutation_middle.
Qed.

Lemma filter_eq_not_in (x : nat) (l : list nat) :
  x ∉ l → filter (λ y, y = x) l = [].
Proof.
  induction l as [|y l IH]; intros Hx; [done|].
  apply not_elem_of_cons in Hx as [Hne Hx].
  rewrite filter_cons_False by congruence. by apply IH.
Qed.

Lemma NoDup_filter_eq (x : nat) (l : list nat) :
  NoDup l → (length (filter (λ y, y = x) l) ≤ 1)%nat.
Proof.
  induction 1 as [|y l Hy Hnd IH]; [simpl; lia|].
  destruct (decide (y = x)) as [-> | Hne].
  - rewrite filter_cons_True by done.
    rewrite filter_eq_not_in by done. simpl. lia.
  - by rewrite filter_cons_False.
Qed.

Section Wheel.

Context {F : Type} (F_default : F).
Implicit Types (e : Element F) (t : Timer F) (this : nat) (cb : F).

(** Pushing an entry onto a slot of the wheel adds one link of it. *)
Lemma links_push (a : nat) (r : SlotRef) t t' q :
  slots_ t' = alter (alter (TSQueue_push a) r.2) r.1 (slots_ t) →
  slot_at r t = Some q →
  links t' ≡ₚ a :: links t.
Proof.
  intros Hs Hq. unfold links. rewrite Hs. unfold slot_at in Hq.
  destruct (slots_ t !! r.1) as [wheel|] eqn:Hw; [|done]. simpl in Hq.
  eapply concat_concat_alter; [done|].
  by eapply concat_alter_push.
Qed.

Lemma link_count_perm x t t' (l : list nat) :
  links t' ≡ₚ l → link_count x t' = length (filter (λ y, y = x) l).
Proof. intros Hp. unfold link_count. by rewrite Hp. Qed.

(** ** [NewElement] *)

(** The entry [NewElement] hands out is allocated and is linked nowhere. *)
Lemma NewElement_spec t :
  wheel_inv t →
  ∃ this t1 e,
    NewElement F_default t = (this, t1) ∧
    heap t1 !! this = Some e ∧
    NoDup (this :: links t ++ pool_ t1) ∧
    (∀ x, x ∈ this :: links t ++ pool_ t1 → (x < length (heap t1))%nat) ∧
    (∀ x e', heap t1 !! x = Some e' → slot_ e' = None) ∧
    slots_ t1 = slots_ t ∧ points_ t1 = points_ t ∧
    begin_ t1 = begin_ t ∧ precision_ t1 = precision_ t ∧
    fired t1 = fired t ∧ last_ t1 = last_ t.
Proof.
  intros [Hnd Hal Hsl]. unfold NewElement.
  destruct (pool_ t) as [|x pool'] eqn:Hpool.
  - exists (length (heap t)), (set_heap (heap t ++ [mkElement F_default LFLock_new None]) t),
      (mkElement F_default LFLock_new None).
    simpl. split; [done|].
    split; [by apply list_lookup_middle|].
    rewrite !Hpool. rewrite app_nil_r in *.
    split.
    { apply NoDup_cons_2; [|done].
      intros Hin. apply Hal in Hin. lia. }
    split.
    { intros y Hy. rewrite length_app. simpl.
      apply elem_of_cons in Hy as [-> | Hy]; [lia|].
      apply Hal in Hy. lia. }
    split; [|done].
    intros y e' He'. apply lookup_app_Some in He' as [He' | [_ He']].
    + by eapply Hsl.
    + destruct (y - length (heap t))%nat; simpl in He'; [|done].
      by injection He' as <-.
  - destruct (heap t !! x) as [e|] eqn:He.
    2:{ apply lookup_ge_None in He.
        assert (x < length (heap t))%nat; [|lia].
        apply Hal. apply elem_of_app. right. left. }
    exists x, (set_pool pool' t), e. simpl.
    split; [done|]. split; [done|].
    split.
    { rewrite Permutation_middle. exact Hnd. }
    split.
    { intros y Hy. apply Hal. by rewrite <- Permutation_middle. }
    split; [|done]. exact Hsl.
Qed.

(** ** [StartTimer] *)

Lemma StartTimer_durVal_bound now dur t :
  0 ≤ StartTimer_durVal now dur t < 2 ^ 64.
Proof. unfold StartTimer_durVal, to_uint64. apply Z.mod_pos_bound. lia. Qed.

Lemma wheel_shape_level t (level : nat) :
  wheel_shape t → (level < length (slots_ t))%nat →
  ∃ wheel cursor,
    slots_ t !! level = Some wheel ∧ points_ t !! level = Some cursor ∧
    Z.of_nat (length wheel) = level_size level ∧ 0 ≤ cursor < 2 ^ 31.
Proof.
  intros [Hpts H0 HS Hcur] Hlt.
  destruct (lookup_lt_is_Some_2 (slots_ t) level Hlt) as [wheel Hw].
  destruct (lookup_lt_is_Some_2 (points_ t) level ltac:(lia)) as [cursor Hc].
  exists wheel, cursor. split; [done|]. split; [done|].
  split; [|by eapply Hcur].
  destruct level as [|n].
  - rewrite Hw in H0. simpl in H0. injection H0 as ->. done.
  - specialize (HS (S n) ltac:(lia)). rewrite Hw in HS. simpl in HS.
    injection HS as ->. done.
Qed.

(** What [StartTimer] does, for whatever unsigned tick count it computed:
    it takes an entry from [NewElement], initialises it, and pushes it onto
    one slot, the slot of the level and digit of that tick count. *)
Lemma StartTimer_places now dur cb t :
  wheel_shape t → wheel_inv t → (2 ≤ length (slots_ t))%nat →
  let durVal := StartTimer_durVal now dur t in
  let level := place_level (length (slots_ t)) durVal in
  ∃ this t1 e cursor q,
    NewElement F_default t = (this, t1) ∧ heap t1 !! this = Some e ∧
    points_ t !! level = Some cursor ∧
    let slot :=
      (level,
       Z.to_nat ((cursor + level_digit level durVal) `mod` level_size level)) in
    slot_at slot t = Some q ∧
    StartTimer F_default now dur cb t =
      Some (mkTimerId (Some this) true,
            set_slots
              (alter (alter (TSQueue_push this) slot.2) slot.1 (slots_ t1))
              (set_heap (<[this := Element_init cb e]> (heap t1)) t1)).
Proof.
  intros Hshape Hinv HL durVal level.
  destruct (NewElement_spec t Hinv)
    as (this & t1 & e & HNew & He & _ & _ & _ & Hslots & Hpts & Hbeg & Hprec & _).
  pose proof (StartTimer_durVal_bound now dur t) as Hd. fold durVal in Hd.
  assert (level < length (slots_ t))%nat as Hlev
    by (apply place_level_lt; lia).
  destruct (wheel_shape_level t level Hshape Hlev)
    as (wheel & cursor & Hw & Hc & Hlen & Hcur).
  pose proof (level_digit_bound level durVal) as Hdig.
  assert (level_size level ≤ 64) as Hsz by (destruct level; cbv; congruence).
  assert (0 < level_size level) as Hsz0 by (destruct level; reflexivity).
  set (i := Z.to_nat ((cursor + level_digit level durVal) `mod` level_size level)).
  assert (i < length wheel)%nat as Hi.
  { pose proof (Z.mod_pos_bound (cursor + level_digit level durVal)
                  (level_size level) Hsz0). lia. }
  destruct (lookup_lt_is_Some_2 wheel i Hi) as [q Hq].
  exists this, t1, e, cursor, q.
  split; [done|]. split; [done|]. split; [done|]. cbv zeta. fold i.
  split.
  { unfold slot_at. simpl. rewrite Hw. simpl. done. }
  unfold StartTimer. rewrite HNew, He. simpl.
  assert (StartTimer_durVal now dur
            (set_heap (<[this := Element_init cb e]> (heap t1)) t1) = durVal)
    as ->.
  { unfold durVal, StartTimer_durVal. simpl. by rewrite Hbeg, Hprec. }
  rewrite Hslots, Hpts.
  rewrite StartTimer_place_spec by lia. fold level. simpl.
  rewrite Hw. simpl. rewrite Hc. simpl.
  assert (Z.to_nat
            (to_uint64 (cursor + level_digit level durVal)
               `mod` Z.of_nat (length wheel)) = i) as ->.
  { unfold i, to_uint64. rewrite Hlen.
    rewrite (Z.mod_small (cursor + _) (2 ^ 64)) by lia. done. }
  rewrite Hq. simpl. done.
Qed.

(** The effect of [StartTimer] on the wheel: the new entry is linked into
    the slot of the level and digit of the tick count, into no other slot,
    and was linked nowhere before. *)
Lemma StartTimer_effect now dur cb t :
  wheel_shape t → wheel_inv t → (2 ≤ length (slots_ t))%nat →
  let durVal := StartTimer_durVal now dur t in
  let level := place_level (length (slots_ t)) durVal in
  ∃ this cursor t',
    StartTimer F_default now dur cb t = Some (mkTimerId (Some this) true, t') ∧
    points_ t !! level = Some cursor ∧
    let slot :=
      (level,
       Z.to_nat ((cursor + level_digit level durVal) `mod` level_size level)) in
    is_Some (slot_at slot t) ∧
    slot_at slot t' = TSQueue_push this <$> slot_at slot t ∧
    (∀ r, r ≠ slot → slot_at r t' = slot_at r t) ∧
    link_count this t = 0%nat ∧ link_count this t' = 1%nat.
Proof.
  intros Hshape Hinv HL durVal level.
  destruct (StartTimer_places now dur cb t Hshape Hinv HL)
    as (this & t1 & e & cursor & q & HNew & He & Hc & Hq & Hstart).
  fold durVal level in Hc, Hq, Hstart. cbv zeta in Hq, Hstart.
  destruct (NewElement_spec t Hinv)
    as (this' & t1' & e' & HNew' & _ & Hnd & _ & _ & Hslots & _).
  rewrite HNew in HNew'. injection HNew' as <- <-.
  set (slot := (level, Z.to_nat ((cursor + level_digit level durVal)
                                   `mod` level_size level))) in *.
  set (t' := set_slots _ _) in Hstart.
  assert (slots_ t' = alter (alter (TSQueue_push this) slot.2) slot.1 (slots_ t))
    as Hs by (subst t'; simpl; by rewrite Hslots).
  exists this, cursor, t'. split; [done|]. split; [done|]. cbv zeta.
  fold slot.
  split; [by eexists|].
  split.
  { rewrite (slot_at_alter _ slot slot t t' Hs). by rewrite decide_True. }
  split.
  { intros r Hr. rewrite (slot_at_alter _ slot r t t' Hs).
    by rewrite decide_False. }
  apply NoDup_cons_1_1 in Hnd. rename Hnd into Hnotin.
  assert (this ∉ links t) as Hfresh.
  { intros Hin. apply Hnotin. apply elem_of_app. by left. }
  split.
  - unfold link_count. by rewrite filter_eq_not_in.
  - rewrite (link_count_perm this t t' (this :: links t)).
    + rewrite filter_cons_True by done. by rewrite filter_eq_not_in.
    + by eapply links_push.
Qed.

(** The tick count of [StartTimer] when the deadline is not before the
    epoch: the quotient rounded down, unchanged by the conversion. *)
Lemma StartTimer_durVal_floor now dur t :
  0 < precision_ t → begin_ t ≤ now + dur → now + dur - begin_ t < 2 ^ 63 →
  StartTimer_durVal now dur t = (now + dur - begin_ t) `div` precision_ t.
Proof.
  intros Hp Hge Hlt. unfold StartTimer_durVal, to_uint64.
  rewrite Z.quot_div_nonneg by lia.
  apply Z.mod_small. split; [apply Z.div_pos; lia|].
  assert ((now + dur - begin_ t) `div` precision_ t ≤ now + dur - begin_ t)
    by (apply Z.div_le_upper_bound; [lia | nia]).
  lia.
Qed.



(** X20.  On a wheel of two levels or more with a positive precision:
    when the deadline [now + dur] is not before the epoch, [StartTimer]
    computes [ticks = floor((now + dur - epoch) / precision)]
    and links the new entry into exactly one slot.  With [rest] the tick
    count without its 2-bit digit: if [rest] is zero the slot is at level 0,
    at [(cursor + ticks mod 4) mod 4]; otherwise it is at the level of the
    most significant nonzero 6-bit digit of [rest], or at the last level of
    the wheel if that one is lower, at [(cursor + digit) mod 64] for the
    digit of that level. *)
Theorem StartTimer_placement now dur cb t :
  wheel_shape t → wheel_inv t → (2 ≤ length (slots_ t))%nat →
  0 < precision_ t → begin_ t ≤ now + dur → now + dur - begin_ t < 2 ^ 63 →
  let ticks := (now + dur - begin_ t) `div` precision_ t in
  let rest := ticks `div` 4 in
  let level :=
    if rest =? 0 then 0%nat
    else (top_level rest `min` (length (slots_ t) - 1))%nat in
  ∃ this cursor t',
    StartTimer F_default now dur cb t = Some (mkTimerId (Some this) true, t') ∧
    points_ t !! level = Some cursor ∧
    let slot :=
      (level,
       Z.to_nat ((cursor + level_digit level ticks) `mod` level_size level)) in
    is_Some (slot_at slot t) ∧
    slot_at slot t' = TSQueue_push this <$> slot_at slot t ∧
    (∀ r, r ≠ slot → slot_at r t' = slot_at r t) ∧
    link_count this t = 0%nat ∧ link_count this t' = 1%nat ∧
    (rest ≠ 0 →
     level_digit (top_level rest) ticks ≠ 0 ∧
     ∀ l, (top_level rest < l)%nat → level_digit l ticks = 0).
Proof.
  intros Hshape Hinv HL Hp Hge Hlt ticks rest level.
  destruct (StartTimer_effect now dur cb t Hshape Hinv HL)
    as (this & cursor & t' & Hstart & Hc & Hrest).
  cbv zeta in Hrest. rewrite StartTimer_durVal_floor in Hc, Hrest by done.
  fold ticks in Hc, Hrest. unfold place_level in Hc, Hrest.
  fold rest in Hc, Hrest. fold level in Hc, Hrest.
  destruct Hrest as (Hsome & Hpush & Hother & Hbefore & Hafter).
  exists this, cursor, t'. cbv zeta. repeat split; try done.
  - apply (top_level_digit ticks).
    assert (0 ≤ rest) by (unfold rest, ticks; repeat apply Z.div_pos; lia).
    fold rest. lia.
  - apply (top_level_digit ticks).
    assert (0 ≤ rest) by (unfold rest, ticks; repeat apply Z.div_pos; lia).
    fold rest. lia.
Qed.


End Wheel.

Section Invariant.

Context {F : Type} (F_default : F) (ClockPeriod : Z * Z).
Implicit Types (e : Element F) (t : Timer F) (this : nat) (cb : F).

(** ** The invariant of the wheel *)

Lemma Timer_levels_ge fuel Period : ∀ timeRange level L,
  Timer_levels fuel Period timeRange level = Some L → (level ≤ L)%nat.
Proof.
  induction fuel as [|fuel IH]; intros timeRange level L; simpl; [done|].
  destruct (le_years4 Period timeRange).
  - intros H. apply IH in H. lia.
  - intros [= ->]. lia.
Qed.

Lemma Timer_ctor_inv fuel now Period precision t :
  Timer_ctor ClockPeriod fuel now Period precision = Some t →
  wheel_inv t ∧ wheel_shape t.
Proof.
  unfold Timer_ctor.
  destruct (Timer_levels fuel Period (precision * s_gear1) 1) as [L|] eqn:HL;
    [|done].
  apply Timer_levels_ge in HL. simpl. intros [= <-]. split.
  - split; unfold links; cbn [slots_ pool_ heap].
    + rewrite links_resize_slots. constructor.
    + rewrite links_resize_slots. intros x Hx. by apply elem_of_nil in Hx.
    + intros x e He. done.
  - split; cbn [slots_ points_].
    + by rewrite length_replicate, length_resize_slots.
    + by apply lookup_resize_slots_0.
    + rewrite length_resize_slots. intros l Hl.
      by apply lookup_resize_slots_S.
    + intros l p Hp. apply lookup_replicate in Hp as [-> _]. lia.
Qed.

Lemma wheel_shape_alter (f : TSQueue → TSQueue) (r : SlotRef) t t' :
  slots_ t' = alter (alter f r.2) r.1 (slots_ t) →
  points_ t' = points_ t →
  wheel_shape t → wheel_shape t'.
Proof.
  intros Hs Hp [Hpts H0 HS Hcur].
  assert (∀ l, length <$> slots_ t' !! l = length <$> slots_ t !! l) as Hlen.
  { intros l. rewrite Hs. rewrite list_lookup_alter.
    destruct (decide (r.1 = l)) as [<- | Hne]; [|done].
    destruct (slots_ t !! r.1) as [wheel|]; [|done]. simpl.
    by rewrite length_alter. }
  split.
  - by rewrite Hp, Hs, length_alter.
  - by rewrite Hlen.
  - intros l Hl. rewrite Hlen. apply HS.
    by rewrite Hs, length_alter in Hl.
  - intros l p. rewrite Hp. apply Hcur.
Qed.

Lemma wheel_shape_same t t' :
  slots_ t' = slots_ t → points_ t' = points_ t →
  wheel_shape t → wheel_shape t'.
Proof.
  intros Hs Hp [Hpts H0 HS Hcur]. split; rewrite ?Hs, ?Hp; try done.
Qed.

(** An update of one entry that leaves its back-reference null. *)
Lemma wheel_inv_update this (e' : Element F) t t' :
  heap t' = <[this := e']> (heap t) → slot_ e' = None →
  slots_ t' = slots_ t → pool_ t' = pool_ t →
  wheel_inv t → wheel_inv t'.
Proof.
  intros Hh He' Hs Hp [Hnd Hal Hsl].
  assert (links t' = links t) as Hl by (unfold links; by rewrite Hs).
  split.
  - by rewrite Hl, Hp.
  - intros x. rewrite Hl, Hp, Hh, length_insert. apply Hal.
  - intros x e. rewrite Hh. intros Hx.
    apply list_lookup_insert_Some in Hx as [(-> & <- & _) | [_ Hx]]; [done|].
    by eapply Hsl.
Qed.

Lemma Timer_call_inv this t t' :
  Timer_call this t = Some t' → wheel_inv t → wheel_inv t' ∧
  slots_ t' = slots_ t ∧ points_ t' = points_ t.
Proof.
  unfold Timer_call. destruct (heap t !! this) as [e|] eqn:He; [|done].
  simpl. destruct (Element_call this e) as [e' log] eqn:Hcall.
  intros [= <-] Hinv. split; [|done].
  apply (wheel_inv_update this e' t); try done.
  destruct (active_ e) eqn:Ha.
  - rewrite Element_call_held in Hcall by done. injection Hcall as <- _.
    by eapply inv_slot.
  - rewrite Element_call_open in Hcall by done. by injection Hcall as <- _.
Qed.

Lemma Timer_init_inv this cb t t' :
  Timer_init this cb t = Some t' → wheel_inv t → wheel_inv t' ∧
  slots_ t' = slots_ t ∧ points_ t' = points_ t.
Proof.
  unfold Timer_init. destruct (heap t !! this) as [e|] eqn:He; [|done].
  simpl. intros [= <-] Hinv. split; [|done].
  by apply (wheel_inv_update this (Element_init cb e) t).
Qed.

(** No entry carries a back-reference, so a cancel attempt erases
    nothing: the slots are as they were. *)
Lemma Timer_cancel_inv this t r t' :
  Timer_cancel this t = Some (r, t') → wheel_inv t → wheel_inv t' ∧
  slots_ t' = slots_ t ∧ points_ t' = points_ t.
Proof.
  intros Hc Hinv. unfold Timer_cancel in Hc.
  destruct (heap t !! this) as [e|] eqn:He; [|done]. simpl in Hc.
  pose proof (inv_slot _ t Hinv this e He) as Hnull.
  destruct (active_ e) eqn:Ha.
  - rewrite Element_cancel_held in Hc by done. injection Hc as <- <-.
    split; [|done].
    apply (wheel_inv_update this e t); try done.
  - rewrite Element_cancel_open in Hc by done. rewrite Hnull in Hc.
    injection Hc as <- <-. split; [|done].
    by apply (wheel_inv_update this (mkElement (cb_ e) true None) t).
Qed.

Lemma TimerId_StopTimer_inv (id : TimerId) t r t' :
  TimerId_StopTimer id t = Some (r, t') → wheel_inv t → wheel_inv t' ∧
  slots_ t' = slots_ t ∧ points_ t' = points_ t.
Proof.
  unfold TimerId_StopTimer, Timer_StopTimer.
  destruct (timer_ id); [|by intros [= <- <-]].
  destruct (TimerId_bool id); [|by intros [= <- <-]].
  destruct (elem_ id) as [this|]; [|done]. simpl.
  apply Timer_cancel_inv.
Qed.

(** Every successful [StartTimer] is a push of the entry that
    [NewElement] handed out onto one slot of the wheel. *)
Lemma StartTimer_inversion now dur cb t (id : TimerId) t' :
  StartTimer F_default now dur cb t = Some (id, t') →
  ∃ this t1 e (r : SlotRef) q,
    NewElement F_default t = (this, t1) ∧ heap t1 !! this = Some e ∧
    slot_at r t1 = Some q ∧ id = mkTimerId (Some this) true ∧
    t' = set_slots (alter (alter (TSQueue_push this) r.2) r.1 (slots_ t1))
           (set_heap (<[this := Element_init cb e]> (heap t1)) t1).
Proof.
  unfold StartTimer. destruct (NewElement F_default t) as [this t1].
  destruct (heap t1 !! this) as [e|] eqn:He; [|done]. simpl.
  destruct (StartTimer_place _ _) as [[level offset]|]; [|done]. simpl.
  destruct (slots_ t1 !! level) as [wheel|] eqn:Hw; [|done]. simpl.
  destruct (points_ t1 !! level) as [point|]; [|done]. simpl.
  set (i := Z.to_nat _).
  destruct (wheel !! i) as [q|] eqn:Hq; [|done]. simpl.
  intros [= <- <-]. exists this, t1, e, (level, i), q.
  repeat split; try done.
  unfold slot_at. simpl. by rewrite Hw.
Qed.

Lemma StartTimer_inv now dur cb t (id : TimerId) t' :
  StartTimer F_default now dur cb t = Some (id, t') →
  wheel_inv t → wheel_shape t → wheel_inv t' ∧ wheel_shape t'.
Proof.
  intros Hstart Hinv Hshape.
  destruct (StartTimer_inversion _ _ _ _ _ _ Hstart)
    as (this & t1 & e & r & q & HNew & He & Hq & -> & ->).
  destruct (NewElement_spec F_default t Hinv)
    as (this' & t1' & e' & HNew' & _ & Hnd & Hal & Hsl & Hslots & Hpts & _).
  rewrite HNew in HNew'. injection HNew' as <- <-.
  set (t' := set_slots _ _).
  assert (slots_ t' = alter (alter (TSQueue_push this) r.2) r.1 (slots_ t))
    as Hs by (subst t'; simpl; by rewrite Hslots).
  assert (links t' ≡ₚ this :: links t) as Hl.
  { apply (links_push this r t t' q Hs).
    unfold slot_at in *. by rewrite <- Hslots. }
  split.
  - split.
    + rewrite Hl. exact Hnd.
    + intros x. rewrite Hl. subst t'. simpl. rewrite length_insert.
      apply Hal.
    + intros x e0. subst t'. simpl. intros Hx.
      apply list_lookup_insert_Some in Hx as [(-> & <- & _) | [_ Hx]].
      * by rewrite Element_init_eq.
      * by eapply Hsl.
  - by apply (wheel_shape_alter (TSQueue_push this) r t t' Hs).
Qed.

(** ** [ThreadRun] *)

Lemma ThreadRun_pass_wheel now t (destPoints : list Z) :
  (ThreadRun_pass now t destPoints).2 = t.
Proof.
  unfold ThreadRun_pass. by destruct (ThreadRun_for _ _ _ _).
Qed.

(** However often the loop runs, the wheel is as it was: no cursor moves,
    no slot is drained, no callback runs. *)
Lemma ThreadRun_passes_wheel (clock : list Z) : ∀ t (destPoints : list Z),
  (ThreadRun_passes clock t destPoints).2 = t.
Proof.
  induction clock as [|now clock IH]; intros t destPoints; [done|].
  simpl. pose proof (ThreadRun_pass_wheel now t destPoints) as Hp.
  destruct (ThreadRun_pass now t destPoints) as [d t']. simpl in Hp.
  subst t'. apply IH.
Qed.

(** The inner loop writes the next [count] 6-bit digits of [durVal] at the
    indices from [i] on and leaves the other indices alone. *)
Lemma ThreadRun_for_spec (count : nat) : ∀ (i : nat) (durVal : Z)
    (destPoints : list Z),
  (i + count ≤ length destPoints)%nat →
  length (ThreadRun_for count i durVal destPoints).1 = length destPoints ∧
  ∀ j, (ThreadRun_for count i durVal destPoints).1 !! j =
    if decide (i ≤ j < i + count)%nat
    then Some ((durVal ≫ (6 * Z.of_nat (j - i))) `mod` 64)
    else destPoints !! j.
Proof.
  induction count as [|count IH]; intros i durVal destPoints Hlen.
  - simpl. split; [done|]. intros j. rewrite decide_False by lia. done.
  - simpl.
    destruct (IH (S i) (durVal ≫ s_gearShift)
                (<[i := Z.land durVal (s_gear - 1)]> destPoints))
      as [Hl Hj].
    { rewrite length_insert. lia. }
    rewrite length_insert in Hl. split; [done|].
    intros j. rewrite Hj.
    destruct (decide (S i ≤ j < S i + count)%nat) as [Hin | Hout].
    + rewrite decide_True by lia. f_equal. f_equal.
      unfold s_gearShift. rewrite Z.shiftr_shiftr by lia. f_equal. lia.
    + destruct (decide (j = i)) as [-> | Hne].
      * rewrite decide_True by lia.
        rewrite list_lookup_insert_eq by lia.
        rewrite land_gear. replace (i - i)%nat with 0%nat by lia.
        simpl. by rewrite Z.shiftr_0_r.
      * rewrite decide_False by lia.
        by rewrite list_lookup_insert_ne.
Qed.

(** C2 (as the code has it).  A pass of the driver loop computes the
    absolute tick count [floor((now - epoch) / precision)] and writes its
    digits, one 2-bit digit and then 6-bit digits, into [destPoints]; that
    is all it does.  It moves no cursor, drains no slot, fires and
    releases no entry, cascades nothing and does not set [last_]: the
    wheel is as it was. *)
Theorem ThreadRun_pass_destPoints now t (destPoints : list Z) :
  0 < precision_ t → begin_ t ≤ now → now - begin_ t < 2 ^ 63 →
  let ticks := (now - begin_ t) `div` precision_ t in
  ∃ destPoints',
    ThreadRun_pass now t destPoints = (destPoints', t) ∧
    length destPoints' = length destPoints ∧
    ∀ l, (l < length destPoints)%nat →
      destPoints' !! l = Some (level_digit l ticks).
Proof.
  intros Hp Hge Hlt ticks. unfold ThreadRun_pass.
  assert (to_uint64 (Z.quot (now - begin_ t) (precision_ t)) = ticks) as ->.
  { pose proof (StartTimer_durVal_floor now 0 t Hp) as Hd.
    unfold StartTimer_durVal in Hd. rewrite !Z.add_0_r in Hd.
    by apply Hd. }
  rewrite land_gear1, shiftr_gear1.
  set (d0 := <[0%nat := ticks `mod` 4]> destPoints).
  assert (length d0 = length destPoints) as Hd0 by apply length_insert.
  destruct (length destPoints) as [|n] eqn:Hn.
  { exists d0. rewrite Hd0. simpl. split; [done|]. split; [done|]. lia. }
  destruct (ThreadRun_for_spec (length d0 - 1) 1 (ticks `div` 4) d0 ltac:(lia))
    as [Hl Hj].
  destruct (ThreadRun_for (length d0 - 1) 1 (ticks `div` 4) d0)
    as [destPoints' durVal'].
  simpl in Hl, Hj. exists destPoints'. split; [done|].
  split; [lia|].
  intros l Hlt'. rewrite Hj. destruct l as [|l].
  - rewrite decide_False by lia. subst d0.
    rewrite list_lookup_insert_eq by lia. done.
  - rewrite decide_True by lia. rewrite level_digit_succ.
    replace (S l - 1)%nat with l by lia. done.
Qed.

(** ** The invariant over the states of the wheel *)

Lemma reachable_inv t :
  reachable F_default ClockPeriod t → wheel_inv t ∧ wheel_shape t.
Proof.
  induction 1 as [fuel now Period precision t Hctor
                 | now dur cb t id t' _ [Hinv Hshape] Hstart
                 | id t r t' _ [Hinv Hshape] Hstop
                 | this t t' _ [Hinv Hshape] Hcall
                 | this cb t t' _ [Hinv Hshape] Hinit
                 | min max t _ [Hinv Hshape]
                 | now destPoints t _ IH].
  - by eapply Timer_ctor_inv.
  - by eapply StartTimer_inv.
  - destruct (TimerId_StopTimer_inv id t r t' Hstop Hinv) as (? & Hs & Hp).
    split; [done|]. by apply (wheel_shape_same t).
  - destruct (Timer_call_inv this t t' Hcall Hinv) as (? & Hs & Hp).
    split; [done|]. by apply (wheel_shape_same t).
  - destruct (Timer_init_inv this cb t t' Hinit Hinv) as (? & Hs & Hp).
    split; [done|]. by apply (wheel_shape_same t).
  - split.
    + destruct Hinv as [Hnd Hal Hsl]. by split.
    + by apply (wheel_shape_same t).
  - by rewrite ThreadRun_pass_wheel.
Qed.

(** In this source nothing ever stores a slot in [slot_]: in every state
    the wheel goes through, every back-reference is null.  A cancel attempt
    therefore erases nothing and a cancelled entry stays linked. *)
Lemma back_reference_null t this e :
  reachable F_default ClockPeriod t → heap t !! this = Some e →
  slot_ e = None.
Proof.
  intros Hreach He. destruct (reachable_inv t Hreach) as [[_ _ Hsl] _].
  by eapply Hsl.
Qed.

(** C9.  In every state the wheel goes through, an entry is linked into
    at most one slot, at most once, and its back-reference is null or names
    a slot that holds it. *)
Theorem entry_linked_once t this e :
  reachable F_default ClockPeriod t → heap t !! this = Some e →
  (link_count this t ≤ 1)%nat ∧ slot_ref_ok this e t.
Proof.
  intros Hreach He. destruct (reachable_inv t Hreach) as [[Hnd Hal Hsl] _].
  split.
  - unfold link_count. apply NoDup_filter_eq.
    by apply list.NoDup_app in Hnd as [Hnd _].
  - left. by eapply Hsl.
Qed.

End Invariant.

(** * Concrete runs *)

Lemma wheel_1ns_eq : wheel_1ns = Some wheel0.
Proof. vm_compute. reflexivity. Qed.

Lemma wheel_armed_eq : wheel_armed = Some (handle0, wheel1).
Proof. vm_compute. reflexivity. Qed.

Lemma wheel0_inv : wheel_inv wheel0 ∧ wheel_shape wheel0.
Proof. exact (Timer_ctor_inv nanoseconds 16 0 nanoseconds 1 wheel0 wheel_1ns_eq). Qed.

Lemma wheel0_reachable : reachable 0%nat nanoseconds wheel0.
Proof. exact (reach_ctor _ _ _ 16%nat 0 nanoseconds 1 wheel0 wheel_1ns_eq). Qed.

Lemma wheel1_reachable : reachable 0%nat nanoseconds wheel1.
Proof.
  apply (reach_StartTimer _ _ _ 0 1 7%nat wheel0 handle0 wheel1 wheel0_reachable).
  vm_compute. reflexivity.
Qed.

(** ** The gate *)

(** C5 (the failing input).  The entry of [wheel1] is cancelled through its
    handle, which leaves its gate held, and is then reinitialised with the
    callback 8, as [StartTimer] does with an entry it reuses: the
    back-reference is null, but the gate is still held, and a fire attempt
    on the rearmed entry runs nothing. *)
Theorem Element_init_after_cancel :
  ∃ t1 t2,
    TimerId_StopTimer handle0 wheel1 = Some (true, t1) ∧
    gate 0%nat t1 = Some true ∧
    Timer_init 0%nat 8%nat t1 = Some t2 ∧
    heap t2 !! 0%nat = Some (mkElement 8%nat true None) ∧
    Timer_call 0%nat t2 = Some t2 ∧ fired t2 = [].
Proof. do 2 eexists. vm_compute. repeat split. Qed.

(** C1 (counterexample).  On the entry of [wheel1], freshly initialised
    and armed: a fire attempt runs the callback and leaves the gate open
    again; a second fire attempt runs the callback a second time; and a
    cancel attempt after a fire attempt returns true although the callback
    has run. *)
Lemma fire_attempt_reopens_gate :
  gate 0%nat wheel1 = Some false ∧
  (∃ t', Timer_call 0%nat wheel1 = Some t' ∧
         executions 0%nat t' = 1%nat ∧ gate 0%nat t' = Some false) ∧
  (∃ t', attempts 0%nat [Fire_attempt; Fire_attempt] wheel1 = Some ([], t') ∧
         executions 0%nat t' = 2%nat ∧ ¬ (executions 0%nat t' ≤ 1)%nat) ∧
  (∃ t', attempts 0%nat [Fire_attempt; Cancel_attempt] wheel1 =
           Some ([true], t') ∧
         executions 0%nat t' = 1%nat ∧ executions 0%nat t' ≠ 0%nat).
Proof.
  split; [reflexivity|]. split; [|split].
  - eexists. vm_compute. repeat split.
  - eexists. vm_compute. repeat split. lia.
  - eexists. vm_compute. repeat split. lia.
Qed.

Lemma gate_over_attempts_witness :
  heap wheel1 !! 0%nat = Some (mkElement 7%nat false None) ∧
  ∃ rs t',
    attempts 0%nat
      [Fire_attempt; Cancel_attempt; Fire_attempt; Cancel_attempt] wheel1 =
      Some (rs, t') ∧
    rs = [true; false] ∧
    (length (filter (λ r, r = true) rs) ≤ 1)%nat ∧
    fired t' = [mkFire 0%nat 7%nat None true] ∧
    executions 0%nat t' = 1%nat ∧
    gate 0%nat t' = Some true.
Proof.
  split; [reflexivity|].
  exact (gate_over_attempts 0%nat
           [Fire_attempt; Cancel_attempt; Fire_attempt; Cancel_attempt]
           wheel1 (mkElement 7%nat false None) eq_refl).
Defined.

(** C4 (counterexample).  The entry of [wheel1] fires: its callback runs
    once.  [StopTimer] through its handle then returns true, not false. *)
Lemma StopTimer_after_fire_returns_true :
  ∃ t1 t2,
    Timer_call 0%nat wheel1 = Some t1 ∧ executions 0%nat t1 = 1%nat ∧
    TimerId_StopTimer handle0 t1 = Some (true, t2) ∧
    TimerId_StopTimer handle0 t1 ≠ Some (false, t1) ∧
    executions 0%nat t2 = 1%nat.
Proof. do 2 eexists. vm_compute. repeat split. discriminate. Qed.

(** ** The constructor *)

Lemma Timer_ctor_levels_witness :
  0 < 1 ∧ 0 < nanoseconds.1 ∧ 0 < nanoseconds.2 ∧
  ∃ (fuel0 : nat) (t : Timer nat),
    (∀ fuel, (fuel0 ≤ fuel)%nat →
       Timer_ctor nanoseconds fuel 0 nanoseconds 1 = Some t) ∧
    let L := length (slots_ t) in
    (1 ≤ L)%nat ∧ length (points_ t) = L ∧
    length <$> slots_ t !! 0%nat = Some 4%nat ∧
    (∀ l, (1 ≤ l < L)%nat → length <$> slots_ t !! l = Some 64%nat) ∧
    years4_seconds * nanoseconds.2 <
      1 * 4 * 64 ^ (Z.of_nat L - 1) * nanoseconds.1 ∧
    (L = 1%nat ∨
     1 * 4 * 64 ^ (Z.of_nat L - 2) * nanoseconds.1 ≤
       years4_seconds * nanoseconds.2).
Proof.
  split; [reflexivity|]. split; [reflexivity|]. split; [reflexivity|].
  exact (Timer_ctor_levels (F:=nat) nanoseconds 0 nanoseconds 1
           eq_refl eq_refl eq_refl).
Defined.

(** ** [StartTimer] *)

Lemma StartTimer_placement_witness :
  wheel_shape wheel0 ∧ wheel_inv wheel0 ∧
  let ticks := (0 + 1000 - begin_ wheel0) `div` precision_ wheel0 in
  let rest := ticks `div` 4 in
  let level :=
    if rest =? 0 then 0%nat
    else (top_level rest `min` (length (slots_ wheel0) - 1))%nat in
  ∃ this cursor t',
    StartTimer 0%nat 0 1000 7%nat wheel0 =
      Some (mkTimerId (Some this) true, t') ∧
    points_ wheel0 !! level = Some cursor ∧
    let slot :=
      (level,
       Z.to_nat ((cursor + level_digit level ticks) `mod` level_size level)) in
    is_Some (slot_at slot wheel0) ∧
    slot_at slot t' = TSQueue_push this <$> slot_at slot wheel0 ∧
    (∀ r, r ≠ slot → slot_at r t' = slot_at r wheel0) ∧
    link_count this wheel0 = 0%nat ∧ link_count this t' = 1%nat ∧
    (rest ≠ 0 →
     level_digit (top_level rest) ticks ≠ 0 ∧
     ∀ l, (top_level rest < l)%nat → level_digit l ticks = 0).
Proof.
  split; [apply wheel0_inv|]. split; [apply wheel0_inv|].
  apply (StartTimer_placement 0%nat 0 1000 7%nat wheel0).
  - apply wheel0_inv.
  - apply wheel0_inv.
  - vm_compute. lia.
  - reflexivity.
  - vm_compute. discriminate.
  - reflexivity.
Defined.



(** ** [ThreadRun] *)

(** C2 (counterexample).  [wheel1] holds an entry in slot 1 of level 0,
    due at tick 1, and its level-0 cursor is 0.  After a pass of the loop
    at time 1 the destination of level 0 is 1, but the cursor is still 0,
    the entry is still in its slot, no callback has run, and [last_] is
    still 0 and not 1. *)
Lemma ThreadRun_pass_fires_nothing :
  ∃ destPoints' t',
    ThreadRun_pass 1 wheel1 (replicate 11 0) = (destPoints', t') ∧
    destPoints' !! 0%nat = Some 1 ∧
    points_ t' !! 0%nat = Some 0 ∧
    points_ t' !! 0%nat ≠ destPoints' !! 0%nat ∧
    slot_at (0%nat, 1%nat) t' = Some [0%nat] ∧
    fired t' = [] ∧
    last_ t' = 0 ∧ last_ t' ≠ 1.
Proof. do 2 eexists. vm_compute. repeat split; discriminate. Qed.

Lemma ThreadRun_pass_destPoints_witness :
  0 < precision_ wheel1 ∧ begin_ wheel1 ≤ 1000 ∧ 1000 - begin_ wheel1 < 2 ^ 63 ∧
  let ticks := (1000 - begin_ wheel1) `div` precision_ wheel1 in
  ∃ destPoints',
    ThreadRun_pass 1000 wheel1 (replicate 11 0) = (destPoints', wheel1) ∧
    length destPoints' = length (replicate 11 0) ∧
    ∀ l, (l < length (replicate 11 0))%nat →
      destPoints' !! l = Some (level_digit l ticks).
Proof.
  split; [reflexivity|]. split; [vm_compute; discriminate|].
  split; [reflexivity|].
  apply (ThreadRun_pass_destPoints 1000 wheel1 (replicate 11 0)).
  - reflexivity.
  - vm_compute. discriminate.
  - reflexivity.
Defined.

(** ** Links *)

Lemma entry_linked_once_witness :
  reachable 0%nat nanoseconds wheel1 ∧
  heap wheel1 !! 0%nat = Some (mkElement 7%nat false None) ∧
  (link_count 0%nat wheel1 ≤ 1)%nat ∧
  slot_ref_ok 0%nat (mkElement 7%nat false None) wheel1.
Proof.
  split; [exact wheel1_reachable|]. split; [reflexivity|].
  exact (entry_linked_once 0%nat nanoseconds wheel1 0%nat
           (mkElement 7%nat false None) wheel1_reachable eq_refl).
Defined.

(** * Further properties of the entry and its gate *)

Lemma filter_eq_filter_ne (x a : nat) (q : list nat) :
  x ≠ a → filter (λ y, y = x) (filter (λ y, y ≠ a) q) = filter (λ y, y = x) q.
Proof.
  intros Hne. induction q as [|y q IH]; [done|].
  destruct (decide (y = a)) as [-> | Hya].
  - rewrite (filter_cons_False (λ y, y ≠ a)) by tauto.
    rewrite (filter_cons_False (λ y, y = x)) by congruence. exact IH.
  - rewrite (filter_cons_True (λ y, y ≠ a)) by done.
    destruct (decide (y = x)) as [-> | Hyx].
    + rewrite !(filter_cons_True (λ y, y = x)) by done. by rewrite IH.
    + rewrite !(filter_cons_False (λ y, y = x)) by done. exact IH.
Qed.

Lemma filter_concat_alter (P : nat → Prop) `{∀ y, Decision (P y)}
    (f : TSQueue → TSQueue) (wheel : list TSQueue) (i : nat) :
  (∀ q, filter P (f q) = filter P q) →
  filter P (concat (alter f i wheel)) = filter P (concat wheel).
Proof.
  intros Hf. revert i. induction wheel as [|q wheel IH]; intros [|i]; try done.
  - change (alter f 0%nat (q :: wheel)) with (f q :: wheel).
    change (concat (?a :: ?b)) with (a ++ concat b).
    by rewrite !list.filter_app, Hf.
  - change (alter f (S i) (q :: wheel)) with (q :: alter f i wheel).
    change (concat (?a :: ?b)) with (a ++ concat b).
    by rewrite !list.filter_app, IH.
Qed.

Lemma filter_concat_concat_alter (P : nat → Prop) `{∀ y, Decision (P y)}
    (g : list TSQueue → list TSQueue) (slots : list (list TSQueue)) (l : nat) :
  (∀ w, filter P (concat (g w)) = filter P (concat w)) →
  filter P (concat (concat (alter g l slots))) =
    filter P (concat (concat slots)).
Proof.
  intros Hg. revert l. induction slots as [|w slots IH]; intros [|l]; try done.
  - change (alter g 0%nat (w :: slots)) with (g w :: slots).
    change (concat (?a :: ?b)) with (a ++ concat b).
    by rewrite !concat_app, !list.filter_app, Hg.
  - change (alter g (S l) (w :: slots)) with (w :: alter g l slots).
    change (concat (?a :: ?b)) with (a ++ concat b).
    by rewrite !concat_app, !list.filter_app, IH.
Qed.

(** Erasing one entry from a slot leaves the links of every other entry. *)
Lemma filter_links_erase (x a : nat) (r : SlotRef) (slots : list (list TSQueue)) :
  x ≠ a →
  filter (λ y, y = x) (concat (concat (Slot_erase r a slots))) =
    filter (λ y, y = x) (concat (concat slots)).
Proof.
  intros Hne. unfold Slot_erase.
  apply filter_concat_concat_alter. intros w.
  apply filter_concat_alter. intros q.
  by apply filter_eq_filter_ne.
Qed.

Section MoreGate.

Context {F : Type}.
Implicit Types (e : Element F) (t : Timer F) (this : nat) (cb : F).

(** X1.  On an entry that is valid, over any sequence of fire and cancel
    attempts, [isValid] answers true at the end exactly when the sequence
    holds no cancel attempt: fire attempts leave the entry valid, the first
    cancel attempt makes it invalid for good. *)
Theorem isValid_after_attempts this ops t e :
  heap t !! this = Some e → Element_isValid e = true →
  ∃ rs t' e',
    attempts this ops t = Some (rs, t') ∧ heap t' !! this = Some e' ∧
    Element_isValid e' = bool_decide (cancels ops = []).
Proof.
  intros He Hv. unfold Element_isValid, LFLock_is_lock in Hv.
  apply negb_true_iff in Hv.
  destruct (attempts_open this ops t e He Hv) as (t' & Hr & _ & Hg).
  unfold gate in Hg. destruct (heap t' !! this) as [e'|] eqn:He'; [|done].
  simpl in Hg. injection Hg as Hg.
  exists (first_wins ops), t', e'. split; [done|]. split; [done|].
  unfold Element_isValid, LFLock_is_lock. rewrite Hg.
  destruct (cancels ops) as [|c cs].
  - rewrite (bool_decide_eq_false_2 ([] ≠ [])) by tauto.
    by rewrite bool_decide_eq_true_2.
  - rewrite (bool_decide_eq_true_2 (c :: cs ≠ [])) by done.
    by rewrite bool_decide_eq_false_2.
Qed.

(** X2.  [StopTimer] is idempotent: after any [StopTimer] on a handle to
    an entry, whatever it answered, a second [StopTimer] on the same handle
    answers false and changes nothing. *)
Theorem StopTimer_twice (id : TimerId) t r t' :
  TimerId_bool id = true →
  TimerId_StopTimer id t = Some (r, t') →
  TimerId_StopTimer id t' = Some (false, t').
Proof.
  unfold TimerId_StopTimer, Timer_StopTimer, TimerId_bool.
  destruct id as [[this|] []]; simpl; try done. intros _ Hc.
  assert (∃ e', heap t' !! this = Some e' ∧ active_ e' = true)
    as (e' & He' & Ha').
  { unfold Timer_cancel in Hc.
    destruct (heap t !! this) as [e|] eqn:He; [|done]. simpl in Hc.
    pose proof (lookup_lt_Some _ _ _ He) as Hl.
    destruct (active_ e) eqn:Ha.
    - rewrite Element_cancel_held in Hc by done. injection Hc as <- <-.
      exists e. simpl. split; [|done]. by apply list_lookup_insert_eq.
    - rewrite Element_cancel_open in Hc by done. injection Hc as <- <-.
      eexists. simpl. split; [by apply list_lookup_insert_eq|done]. }
  by apply Timer_cancel_held with e'.
Qed.

Lemma Timer_call_frame this t t' :
  Timer_call this t = Some t' →
  slots_ t' = slots_ t ∧ points_ t' = points_ t ∧ pool_ t' = pool_ t ∧
  begin_ t' = begin_ t ∧ precision_ t' = precision_ t ∧ last_ t' = last_ t ∧
  length (heap t') = length (heap t) ∧
  (∀ x, x ≠ this → heap t' !! x = heap t !! x) ∧
  (∀ x, x ≠ this → executions x t' = executions x t).
Proof.
  unfold Timer_call. destruct (heap t !! this) as [e|] eqn:He; [|done].
  simpl. destruct (Element_call this e) as [e' log] eqn:Hcall.
  intros [= <-]. simpl. rewrite length_insert.
  repeat split; try done.
  - intros x Hx. by rewrite list_lookup_insert_ne.
  - intros x Hx. unfold executions. simpl. rewrite list.filter_app.
    destruct (active_ e) eqn:Ha.
    + rewrite Element_call_held in Hcall by done. injection Hcall as _ <-.
      by rewrite app_nil_r.
    + rewrite Element_call_open in Hcall by done. injection Hcall as _ <-.
      rewrite filter_cons_False by (simpl; congruence).
      by rewrite app_nil_r.
Qed.

Lemma Timer_cancel_frame this t r t' :
  Timer_cancel this t = Some (r, t') →
  fired t' = fired t ∧ points_ t' = points_ t ∧ pool_ t' = pool_ t ∧
  begin_ t' = begin_ t ∧ precision_ t' = precision_ t ∧ last_ t' = last_ t ∧
  length (heap t') = length (heap t) ∧
  (∀ x, x ≠ this → heap t' !! x = heap t !! x) ∧
  (∀ x, x ≠ this → link_count x t' = link_count x t).
Proof.
  unfold Timer_cancel. destruct (heap t !! this) as [e|] eqn:He; [|done].
  simpl. destruct (Element_cancel this e (slots_ t)) as [[r0 e'] slots'] eqn:Hc.
  intros [= <- <-]. simpl. rewrite length_insert.
  repeat split; try done.
  - intros x Hx. by rewrite list_lookup_insert_ne.
  - intros x Hx. unfold link_count, links. simpl.
    destruct (active_ e) eqn:Ha.
    + rewrite Element_cancel_held in Hc by done. by injection Hc as _ _ <-.
    + rewrite Element_cancel_open in Hc by done. injection Hc as _ _ <-.
      destruct (slot_ e) as [ref|]; [|done].
      by rewrite filter_links_erase.
Qed.

(** With callbacks that do not act on the wheel themselves, fire and
    cancel attempts on one entry leave every other entry alone: its state, the number of times its callback has run and the
    number of its links are as they were. *)
Lemma attempts_frame this ops : ∀ t rs t' x,
  attempts this ops t = Some (rs, t') → x ≠ this →
  heap t' !! x = heap t !! x ∧
  executions x t' = executions x t ∧
  link_count x t' = link_count x t.
Proof.
  induction ops as [|[] ops IH]; intros t rs t' x Hrun Hx; simpl in Hrun.
  - by injection Hrun as <- <-.
  - destruct (Timer_call this t) as [t1|] eqn:Hcall; [|done]. simpl in Hrun.
    destruct (Timer_call_frame this t t1 Hcall)
      as (Hs & _ & _ & _ & _ & _ & _ & Hh & He).
    destruct (IH t1 rs t' x Hrun Hx) as (IH1 & IH2 & IH3).
    rewrite IH1, IH2, IH3, Hh, He by done.
    unfold link_count, links. by rewrite Hs.
  - destruct (Timer_cancel this t) as [[r t1]|] eqn:Hc; [|done].
    simpl in Hrun.
    destruct (attempts this ops t1) as [[rs1 t2]|] eqn:Hrest; [|done].
    simpl in Hrun. injection Hrun as <- <-.
    destruct (Timer_cancel_frame this t r t1 Hc)
      as (Hf & _ & _ & _ & _ & _ & _ & Hh & Hl).
    destruct (IH t1 rs1 t2 x Hrest Hx) as (IH1 & IH2 & IH3).
    rewrite IH1, IH2, IH3, Hh, Hl by done.
    unfold executions. by rewrite Hf.
Qed.

End MoreGate.

Lemma isValid_after_attempts_witness :
  heap wheel1 !! 0%nat = Some (mkElement 7%nat false None) ∧
  Element_isValid (mkElement 7%nat false None) = true ∧
  ∃ rs t' e',
    attempts 0%nat [Fire_attempt; Cancel_attempt; Fire_attempt] wheel1 =
      Some (rs, t') ∧
    heap t' !! 0%nat = Some e' ∧
    Element_isValid e' = false.
Proof.
  split; [reflexivity|]. split; [reflexivity|].
  exact (isValid_after_attempts 0%nat
           [Fire_attempt; Cancel_attempt; Fire_attempt] wheel1
           (mkElement 7%nat false None) eq_refl eq_refl).
Defined.

Lemma StopTimer_twice_witness :
  TimerId_bool handle0 = true ∧
  TimerId_StopTimer handle0 wheel1 = Some (true, wheel1_cancelled) ∧
  TimerId_StopTimer handle0 wheel1_cancelled = Some (false, wheel1_cancelled).
Proof.
  split; [reflexivity|]. split; [reflexivity|].
  exact (StopTimer_twice handle0 wheel1 true wheel1_cancelled eq_refl eq_refl).
Defined.

(** * Further properties of the wheel *)

Section MoreWheel.

Context {F : Type} (F_default : F) (ClockPeriod : Z * Z).
Implicit Types (e : Element F) (t : Timer F) (this : nat) (cb : F).

(** ** What the operations leave alone *)

Lemma NewElement_frame t :
  let t1 := (NewElement F_default t).2 in
  slots_ t1 = slots_ t ∧ points_ t1 = points_ t ∧ fired t1 = fired t ∧
  begin_ t1 = begin_ t ∧ precision_ t1 = precision_ t ∧ last_ t1 = last_ t ∧
  minPoolSize_ t1 = minPoolSize_ t ∧ maxPoolSize_ t1 = maxPoolSize_ t.
Proof. unfold NewElement. by destruct (pool_ t). Qed.

Lemma NewElement_alloc t :
  pool_ t = [] →
  NewElement F_default t =
    (length (heap t),
     set_heap (heap t ++ [mkElement F_default LFLock_new None]) t).
Proof. unfold NewElement. by intros ->. Qed.

Lemma StartTimer_frame now dur cb t (id : TimerId) t' :
  StartTimer F_default now dur cb t = Some (id, t') →
  points_ t' = points_ t ∧ fired t' = fired t ∧
  begin_ t' = begin_ t ∧ precision_ t' = precision_ t ∧ last_ t' = last_ t.
Proof.
  intros Hstart.
  destruct (StartTimer_inversion F_default _ _ _ _ _ _ Hstart)
    as (this & t1 & e & r & q & HNew & _ & _ & _ & ->).
  pose proof (NewElement_frame t) as Hf. rewrite HNew in Hf. simpl in Hf.
  destruct Hf as (_ & Hp & Hfi & Hb & Hpr & Hl & _). simpl. done.
Qed.

Lemma TimerId_StopTimer_frame (id : TimerId) t r t' :
  TimerId_StopTimer id t = Some (r, t') →
  fired t' = fired t ∧ points_ t' = points_ t ∧ pool_ t' = pool_ t ∧
  begin_ t' = begin_ t ∧ precision_ t' = precision_ t ∧ last_ t' = last_ t ∧
  length (heap t') = length (heap t).
Proof.
  unfold TimerId_StopTimer, Timer_StopTimer.
  destruct (timer_ id); [|by intros [= <- <-]].
  destruct (TimerId_bool id); [|by intros [= <- <-]].
  destruct (elem_ id) as [this|]; [|done]. simpl. intros Hc.
  apply Timer_cancel_frame in Hc
    as (H1 & H2 & H3 & H4 & H5 & H6 & H7 & _).
  exact (conj H1 (conj H2 (conj H3 (conj H4 (conj H5 (conj H6 H7)))))).
Qed.

Lemma Timer_init_frame this cb t t' :
  Timer_init this cb t = Some t' →
  fired t' = fired t ∧ points_ t' = points_ t ∧ pool_ t' = pool_ t ∧
  begin_ t' = begin_ t ∧ precision_ t' = precision_ t ∧ last_ t' = last_ t ∧
  length (heap t') = length (heap t) ∧ slots_ t' = slots_ t.
Proof.
  unfold Timer_init. destruct (heap t !! this) as [e|]; [|done]. simpl.
  intros [= <-]. simpl. by rewrite length_insert.
Qed.

Lemma driven_reachable t :
  driven F_default ClockPeriod t → reachable F_default ClockPeriod t.
Proof.
  induction 1.
  - by eapply reach_ctor.
  - by eapply reach_StartTimer.
  - by eapply reach_StopTimer.
  - by apply reach_SetPoolSize.
  - by apply reach_ThreadRun.
Qed.

(** ** What never happens *)

Lemma reachable_cursors t :
  reachable F_default ClockPeriod t →
  points_ t = replicate (length (points_ t)) 0 ∧ last_ t = begin_ t.
Proof.
  intros Hreach.
  induction Hreach as [fuel now Period precision t Hctor
                      | now dur cb t id t' Hr IH Hstart
                      | id t r t' Hr IH Hstop
                      | this t t' Hr IH Hcall
                      | this cb t t' Hr IH Hinit
                      | min max t Hr IH
                      | now destPoints t Hr IH].
  - unfold Timer_ctor in Hctor.
    destruct (Timer_levels _ _ _ _) as [L|]; [|done]. simpl in Hctor.
    injection Hctor as <-. simpl. by rewrite length_replicate.
  - apply StartTimer_frame in Hstart as (-> & _ & -> & _ & ->). exact IH.
  - apply TimerId_StopTimer_frame in Hstop
      as (_ & -> & _ & -> & _ & -> & _). exact IH.
  - apply Timer_call_frame in Hcall
      as (_ & -> & _ & -> & _ & -> & _). exact IH.
  - apply Timer_init_frame in Hinit
      as (_ & -> & _ & -> & _ & -> & _). exact IH.
  - exact IH.
  - by rewrite ThreadRun_pass_wheel.
Qed.

(** X4.  The cursors never move and [last_] is never updated: in every
    state the wheel goes through there is at least one level, every cursor
    is 0, and [last_] is still the time of construction. *)
Theorem cursors_never_move t :
  reachable F_default ClockPeriod t →
  (1 ≤ length (slots_ t))%nat ∧
  points_ t = replicate (length (slots_ t)) 0 ∧
  last_ t = begin_ t.
Proof.
  intros Hreach. destruct (reachable_cursors t Hreach) as [Hp Hl].
  destruct (reachable_inv F_default ClockPeriod t Hreach) as [_ Hshape].
  destruct Hshape as [Hpts H0 _ _].
  rewrite <- Hpts. split; [|done].
  destruct (slots_ t) as [|w ws]; [done|]. rewrite Hpts. simpl. lia.
Qed.

(** X5.  The class never runs a callback: in every state reached through
    the constructor, [StartTimer], [StopTimer], [SetPoolSize] and passes of
    [ThreadRun], however many and in whatever order, the log of callback
    executions is empty. *)
Theorem class_never_fires t :
  driven F_default ClockPeriod t →
  fired t = [] ∧ ∀ this, executions this t = 0%nat.
Proof.
  intros Hd.
  assert (fired t = []) as Hf.
  { induction Hd as [fuel now Period precision t Hctor
                    | now dur cb t id t' Hr IH Hstart
                    | id t r t' Hr IH Hstop
                    | min max t Hr IH
                    | now destPoints t Hr IH].
    - unfold Timer_ctor in Hctor.
      destruct (Timer_levels _ _ _ _) as [L|]; [|done]. simpl in Hctor.
      by injection Hctor as <-.
    - apply StartTimer_frame in Hstart as (_ & -> & _). exact IH.
    - apply TimerId_StopTimer_frame in Hstop as (-> & _). exact IH.
    - exact IH.
    - by rewrite ThreadRun_pass_wheel. }
  split; [done|]. intros this. unfold executions. by rewrite Hf.
Qed.

Lemma links_all_allocated t :
  reachable F_default ClockPeriod t →
  pool_ t = [] ∧ links t ≡ₚ seq 0 (length (heap t)).
Proof.
  intros Hreach.
  induction Hreach as [fuel now Period precision t Hctor
                      | now dur cb t id t' Hr IH Hstart
                      | id t r t' Hr IH Hstop
                      | this t t' Hr IH Hcall
                      | this cb t t' Hr IH Hinit
                      | min max t Hr IH
                      | now destPoints t Hr IH].
  - unfold Timer_ctor in Hctor.
    destruct (Timer_levels _ _ _ _) as [L|]; [|done]. simpl in Hctor.
    injection Hctor as <-. unfold links. simpl.
    by rewrite links_resize_slots.
  - destruct IH as [Hpool Hlinks].
    destruct (StartTimer_inversion F_default _ _ _ _ _ _ Hstart)
      as (this & t1 & e & r & q & HNew & He & Hq & _ & ->).
    rewrite (NewElement_alloc t Hpool) in HNew. injection HNew as <- <-.
    set (t' := set_slots _ _).
    assert (length (heap t') = S (length (heap t))) as ->.
    { subst t'. simpl. rewrite length_insert, length_app. simpl. lia. }
    assert (links t' ≡ₚ length (heap t) :: links t) as ->.
    { by apply (links_push (length (heap t)) r t t' q). }
    split; [done|]. rewrite seq_S, Hlinks. apply Permutation_cons_append.
  - destruct IH as [Hpool Hlinks].
    destruct (reachable_inv F_default ClockPeriod t Hr) as [Hinv _].
    destruct (TimerId_StopTimer_inv id t r t' Hstop Hinv) as (_ & Hs & _).
    apply TimerId_StopTimer_frame in Hstop
      as (_ & _ & -> & _ & _ & _ & ->).
    split; [done|]. unfold links. by rewrite Hs.
  - destruct IH as [Hpool Hlinks].
    apply Timer_call_frame in Hcall as (Hs & _ & -> & _ & _ & _ & -> & _).
    split; [done|]. unfold links. by rewrite Hs.
  - destruct IH as [Hpool Hlinks].
    apply Timer_init_frame in Hinit
      as (_ & _ & -> & _ & _ & _ & -> & Hs).
    split; [done|]. unfold links. by rewrite Hs.
  - exact IH.
  - by rewrite ThreadRun_pass_wheel.
Qed.

(** X6.  No entry is ever unlinked or handed back: in every state the
    wheel goes through the pool is empty, and the links of the wheel are,
    up to order, the addresses of all the entries ever allocated, each
    once. *)
Theorem entries_never_leave t :
  reachable F_default ClockPeriod t →
  pool_ t = [] ∧ links t ≡ₚ seq 0 (length (heap t)) ∧
  ∀ this, (this < length (heap t))%nat → link_count this t = 1%nat.
Proof.
  intros Hreach. destruct (links_all_allocated t Hreach) as [Hpool Hlinks].
  split; [done|]. split; [done|].
  intros this Hlt. unfold link_count. rewrite Hlinks.
  clear -Hlt. induction (length (heap t)) as [|n IH]; [lia|].
  rewrite seq_S, list.filter_app.
  destruct (decide (this = n)) as [-> | Hne].
  - rewrite filter_eq_not_in by (rewrite elem_of_seq; lia).
    by rewrite filter_cons_True.
  - rewrite (filter_cons_False _ n) by congruence.
    rewrite app_nil_r. apply IH. lia.
Qed.

(** X7.  A stopped timer stays where it is: after [StopTimer] through a
    handle to an entry, the queues of all slots are as they were, the
    entry is still linked, and it is no longer valid. *)
Theorem StopTimer_leaves_entry_linked (id : TimerId) t r t' :
  reachable F_default ClockPeriod t → TimerId_bool id = true →
  TimerId_StopTimer id t = Some (r, t') →
  slots_ t' = slots_ t ∧
  ∃ this e',
    elem_ id = Some this ∧ heap t' !! this = Some e' ∧
    Element_isValid e' = false ∧ link_count this t' = 1%nat.
Proof.
  intros Hreach Hid Hstop.
  destruct (reachable_inv F_default ClockPeriod t Hreach) as [Hinv _].
  destruct (TimerId_StopTimer_inv id t r t' Hstop Hinv) as (_ & Hs & _).
  split; [done|].
  destruct (links_all_allocated t Hreach) as [_ Hlinks].
  unfold TimerId_StopTimer, Timer_StopTimer in Hstop.
  unfold TimerId_bool in Hid.
  destruct id as [[this|] []]; simpl in *; try done.
  unfold Timer_cancel in Hstop.
  destruct (heap t !! this) as [e|] eqn:He; [|done]. simpl in Hstop.
  pose proof (lookup_lt_Some _ _ _ He) as Hlt.
  exists this.
  assert (link_count this t' = 1%nat) as Hone.
  { unfold link_count, links. rewrite Hs. fold (links t). rewrite Hlinks.
    clear -Hlt. induction (length (heap t)) as [|n IH]; [lia|].
    rewrite seq_S, list.filter_app.
    destruct (decide (this = n)) as [-> | Hne].
    - rewrite filter_eq_not_in by (rewrite elem_of_seq; lia).
      by rewrite filter_cons_True.
    - rewrite (filter_cons_False _ n) by congruence.
      rewrite app_nil_r. apply IH. lia. }
  destruct (active_ e) eqn:Ha.
  - rewrite Element_cancel_held in Hstop by done. injection Hstop as <- <-.
    exists e. simpl. rewrite list_lookup_insert_eq by done.
    unfold Element_isValid, LFLock_is_lock. rewrite Ha. done.
  - rewrite Element_cancel_open in Hstop by done. injection Hstop as <- <-.
    eexists. simpl. rewrite list_lookup_insert_eq by done.
    split; [done|]. split; [done|]. split; [done|]. exact Hone.
Qed.

(** ** More on [StartTimer] *)

(** X8.  On a wheel of two levels or more with a positive precision,
    whatever the clock reading and the duration, negative ones included,
    as long as the deadline and its distance from the epoch are [int64]
    values: [StartTimer] succeeds, it appends the entry at the tail of the
    queue of a slot that exists, and the wheel keeps its shape and its
    invariant. *)
Theorem StartTimer_always_in_range now dur cb t :
  wheel_shape t → wheel_inv t → (2 ≤ length (slots_ t))%nat →
  0 < precision_ t →
  - 2 ^ 63 ≤ now + dur < 2 ^ 63 →
  - 2 ^ 63 ≤ now + dur - begin_ t < 2 ^ 63 →
  ∃ this t' (r : SlotRef) q,
    StartTimer F_default now dur cb t = Some (mkTimerId (Some this) true, t') ∧
    (r.1 < length (slots_ t))%nat ∧ Z.of_nat r.2 < level_size r.1 ∧
    slot_at r t = Some q ∧ slot_at r t' = Some (q ++ [this]) ∧
    wheel_shape t' ∧ wheel_inv t'.
Proof.
  intros Hshape Hinv HL Hprec Hdeadline Hdistance.
  destruct (StartTimer_effect F_default now dur cb t Hshape Hinv HL)
    as (this & cursor & t' & Hstart & Hc & Hrest).
  cbv zeta in Hrest.
  set (level := place_level (length (slots_ t)) (StartTimer_durVal now dur t))
    in *.
  set (i := Z.to_nat _) in Hrest.
  destruct Hrest as ([q Hq] & Hpush & _).
  exists this, t', (level, i), q. split; [done|].
  split; [apply place_level_lt; lia|].
  split.
  { subst i. simpl.
    assert (0 < level_size level) as Hsz by (destruct level; reflexivity).
    pose proof (Z.mod_pos_bound
                  (cursor + level_digit level (StartTimer_durVal now dur t))
                  (level_size level) Hsz). lia. }
  split; [done|]. split; [by rewrite Hpush, Hq|].
  destruct (StartTimer_inv F_default now dur cb t _ t' Hstart Hinv Hshape).
  done.
Qed.

(** X9.  The decomposition is of the absolute tick count: the entry is
    linked at level 0 exactly when the deadline lies within the first four
    ticks after the epoch, however short the duration is. *)
Theorem StartTimer_level0_iff now dur cb t :
  wheel_shape t → wheel_inv t → (2 ≤ length (slots_ t))%nat →
  0 < precision_ t → begin_ t ≤ now + dur → now + dur - begin_ t < 2 ^ 63 →
  ∃ this t' (r : SlotRef) q,
    StartTimer F_default now dur cb t = Some (mkTimerId (Some this) true, t') ∧
    slot_at r t' = Some q ∧ this ∈ q ∧
    (r.1 = 0%nat ↔ (now + dur - begin_ t) `div` precision_ t < 4).
Proof.
  intros Hshape Hinv HL Hp Hge Hlt.
  destruct (StartTimer_effect F_default now dur cb t Hshape Hinv HL)
    as (this & cursor & t' & Hstart & Hc & Hrest).
  cbv zeta in Hrest. rewrite StartTimer_durVal_floor in Hrest by done.
  set (ticks := (now + dur - begin_ t) `div` precision_ t) in *.
  set (level := place_level (length (slots_ t)) ticks) in *.
  set (i := Z.to_nat _) in Hrest.
  destruct Hrest as ([q Hq] & Hpush & _).
  exists this, t', (level, i), (q ++ [this]).
  split; [done|]. split; [by rewrite Hpush, Hq|].
  split; [apply elem_of_app; right; by left|]. simpl.
  assert (0 ≤ ticks) by (apply Z.div_pos; lia).
  subst level. unfold place_level.
  destruct (ticks `div` 4 =? 0) eqn:Hz.
  - apply Z.eqb_eq in Hz. split; [|done]. intros _.
    pose proof (Z.div_mod ticks 4 ltac:(lia)).
    pose proof (Z.mod_pos_bound ticks 4 ltac:(lia)). lia.
  - apply Z.eqb_neq in Hz. unfold top_level. split; [lia|].
    intros Hlt4. rewrite Z.div_small in Hz by lia. done.
Qed.

(** X10.  On a wheel of one level, [StartTimer] with a deadline four ticks
    or more after the epoch computes level 1, a level the wheel does not
    have: the index into [slots_] is out of range and no slot is chosen. *)
Theorem StartTimer_one_level_out_of_range now dur cb t :
  length (slots_ t) = 1%nat →
  0 < precision_ t → begin_ t ≤ now + dur → now + dur - begin_ t < 2 ^ 63 →
  4 ≤ (now + dur - begin_ t) `div` precision_ t →
  StartTimer_place (length (slots_ t)) (StartTimer_durVal now dur t) =
    Some (1%nat,
          (((now + dur - begin_ t) `div` precision_ t) `div` 4) `mod` 64) ∧
  slots_ t !! 1%nat = None ∧
  StartTimer F_default now dur cb t = None.
Proof.
  intros HL Hp Hge Hlt H4.
  pose proof (StartTimer_durVal_floor now dur t Hp Hge Hlt) as Hd.
  rewrite Hd.
  set (ticks := (now + dur - begin_ t) `div` precision_ t) in *.
  assert (StartTimer_place 1 ticks = Some (1%nat, (ticks `div` 4) `mod` 64))
    as Hplace.
  { unfold StartTimer_place. rewrite shiftr_gear1.
    assert (1 ≤ ticks `div` 4) by (apply Z.div_le_lower_bound; lia).
    rewrite (proj2 (Z.eqb_neq _ _)) by lia.
    cbn [StartTimer_while]. rewrite andb_false_r.
    unfold mbind, option_bind. cbv beta iota. by rewrite land_gear. }
  assert (slots_ t !! 1%nat = None) as Hnone
    by (apply lookup_ge_None; lia).
  rewrite HL. split; [done|]. split; [done|].
  unfold StartTimer.
  pose proof (NewElement_frame t) as Hf.
  destruct (NewElement F_default t) as [this t1]. simpl in Hf.
  destruct Hf as (Hs & _ & _ & Hb & Hpr & _).
  destruct (heap t1 !! this) as [e|]; [|done]. simpl.
  assert (StartTimer_durVal now dur
            (set_heap (<[this := Element_init cb e]> (heap t1)) t1) = ticks)
    as ->.
  { rewrite <- Hd. unfold StartTimer_durVal. simpl. by rewrite Hb, Hpr. }
  rewrite Hs, HL, Hplace. simpl. by rewrite Hnone.
Qed.

(** X11.  Arming and then firing or cancelling, on a wheel of two levels
    or more with a positive precision and an empty pool, for a deadline
    whose distance from the epoch is an [int64] value: a fire attempt on the entry [StartTimer] returned runs the
    callback it was armed with, once; [StopTimer] through the handle
    returned answers true, and a fire attempt made after it runs
    nothing. *)
Theorem StartTimer_then_fire_or_stop now dur cb t :
  wheel_shape t → wheel_inv t → (2 ≤ length (slots_ t))%nat → pool_ t = [] →
  0 < precision_ t →
  - 2 ^ 63 ≤ now + dur < 2 ^ 63 →
  - 2 ^ 63 ≤ now + dur - begin_ t < 2 ^ 63 →
  ∃ this t',
    StartTimer F_default now dur cb t = Some (mkTimerId (Some this) true, t') ∧
    (∃ t1, Timer_call this t' = Some t1 ∧
           fired t1 = fired t ++ [mkFire this cb None true]) ∧
    (∃ t2, TimerId_StopTimer (mkTimerId (Some this) true) t' = Some (true, t2) ∧
           Timer_call this t2 = Some t2 ∧ fired t2 = fired t).
Proof.
  intros Hshape Hinv HL Hpool Hprec Hdeadline Hdistance.
  destruct (StartTimer_places F_default now dur cb t Hshape Hinv HL)
    as (this & t1 & e & cursor & q & HNew & He & _ & _ & Hstart).
  cbv zeta in Hstart.
  rewrite (NewElement_alloc t Hpool) in HNew. injection HNew as <- <-.
  simpl in He. rewrite list_lookup_middle in He by done.
  injection He as <-.
  set (t' := set_slots _ _) in Hstart.
  set (this := length (heap t)) in *.
  assert (heap t' !! this = Some (mkElement cb false None)) as He'.
  { subst t'. simpl. apply list_lookup_insert_eq.
    rewrite length_app. simpl. lia. }
  assert (fired t' = fired t) as Hf by done.
  exists this, t'. split; [done|]. split.
  - rewrite (Timer_call_open this t' _ He') by done.
    eexists. split; [done|]. done.
  - change (TimerId_StopTimer (mkTimerId (Some this) true) t')
      with (Timer_cancel this t').
    rewrite (Timer_cancel_open this t' _ He') by done.
    cbn [slot_ cb_].
    set (t2 := set_slots _ _).
    assert (heap t2 !! this = Some (mkElement cb true None)) as He2.
    { subst t2. cbn [heap set_slots set_heap].
      apply list_lookup_insert_eq. by eapply lookup_lt_Some. }
    exists t2. split; [done|]. split; [|done].
    by apply Timer_call_held with (mkElement cb true None).
Qed.

(** [SetPoolSize] only stores the bounds, and nothing here reads them:
    [StartTimer] and [StopTimer] after [SetPoolSize] do what they do
    without it, the bounds apart. *)
Lemma SetPoolSize_commutes min max now dur cb (id : TimerId) t :
  StartTimer F_default now dur cb (SetPoolSize min max t) =
    (λ r, (r.1, SetPoolSize min max r.2)) <$> StartTimer F_default now dur cb t ∧
  TimerId_StopTimer id (SetPoolSize min max t) =
    (λ r, (r.1, SetPoolSize min max r.2)) <$> TimerId_StopTimer id t.
Proof.
  split.
  - unfold StartTimer, NewElement. simpl.
    destruct (pool_ t) as [|x pool']; simpl.
    + destruct ((heap t ++ _) !! length (heap t)) as [e|]; [|done]. simpl.
      unfold StartTimer_durVal. simpl.
      destruct (StartTimer_place _ _) as [[level offset]|]; [|done]. simpl.
      destruct (slots_ t !! level) as [wheel|]; [|done]. simpl.
      destruct (points_ t !! level) as [point|]; [|done]. simpl.
      by destruct (wheel !! _).
    + destruct (heap t !! x) as [e|]; [|done]. simpl.
      unfold StartTimer_durVal. simpl.
      destruct (StartTimer_place _ _) as [[level offset]|]; [|done]. simpl.
      destruct (slots_ t !! level) as [wheel|]; [|done]. simpl.
      destruct (points_ t !! level) as [point|]; [|done]. simpl.
      by destruct (wheel !! _).
  - unfold TimerId_StopTimer, Timer_StopTimer.
    destruct (timer_ id); [|done]. destruct (TimerId_bool id); [|done].
    destruct (elem_ id) as [this|]; [|done]. simpl.
    unfold Timer_cancel. simpl.
    destruct (heap t !! this) as [e|]; [|done]. simpl.
    by destruct (Element_cancel this e (slots_ t)) as [[r e'] slots'].
Qed.

End MoreWheel.

(** * Further properties of the placement *)

Lemma top_level_mono (r1 r2 : Z) :
  0 < r1 ≤ r2 → (top_level r1 ≤ top_level r2)%nat.
Proof.
  intros Hr. unfold top_level.
  assert (Z.log2 r1 ≤ Z.log2 r2) by (apply Z.log2_le_mono; lia).
  assert (Z.log2 r1 `div` 6 ≤ Z.log2 r2 `div` 6)
    by (apply Z.div_le_mono; lia).
  lia.
Qed.

Lemma place_level_mono (size : nat) (d1 d2 : Z) :
  0 ≤ d1 ≤ d2 → (place_level size d1 ≤ place_level size d2)%nat.
Proof.
  intros Hd. unfold place_level.
  assert (0 ≤ d1 `div` 4) by (apply Z.div_pos; lia).
  assert (d1 `div` 4 ≤ d2 `div` 4) by (apply Z.div_le_mono; lia).
  destruct (d1 `div` 4 =? 0) eqn:H1; [lia|]. apply Z.eqb_neq in H1.
  rewrite (proj2 (Z.eqb_neq (d2 `div` 4) 0)) by lia.
  pose proof (top_level_mono (d1 `div` 4) (d2 `div` 4) ltac:(lia)). lia.
Qed.

(** X13.  A later deadline never goes to a finer level: for tick counts
    [d1 <= d2], the level computed for [d1] is at most that for [d2]. *)
Theorem StartTimer_place_monotone (size : nat) (d1 d2 : Z) :
  (2 ≤ size)%nat → 0 ≤ d1 ≤ d2 →
  ∃ l1 o1 l2 o2,
    StartTimer_place size d1 = Some (l1, o1) ∧
    StartTimer_place size d2 = Some (l2, o2) ∧ (l1 ≤ l2)%nat.
Proof.
  intros Hs Hd. rewrite !StartTimer_place_spec by lia.
  do 4 eexists. split; [done|]. split; [done|].
  by apply place_level_mono.
Qed.

(** X14.  The offset is a slot index of the level: below 4 at level 0,
    where it is the tick count itself, and below 64 elsewhere.  At a level
    that is neither level 0 nor the last one it is at least 1, so the entry
    is never put into the slot the cursor of that level is on. *)
Theorem StartTimer_place_offset (size : nat) (durVal : Z) :
  (2 ≤ size)%nat → 0 ≤ durVal →
  ∃ level offset,
    StartTimer_place size durVal = Some (level, offset) ∧
    (level < size)%nat ∧ 0 ≤ offset < level_size level ∧
    (level = 0%nat → offset = durVal) ∧
    ((1 ≤ level < size - 1)%nat → 1 ≤ offset).
Proof.
  intros Hs Hd. rewrite StartTimer_place_spec by lia.
  do 2 eexists. split; [done|].
  split; [apply place_level_lt; lia|].
  pose proof (level_digit_bound (place_level size durVal) durVal) as Hb.
  split; [done|].
  unfold place_level in *. destruct (durVal `div` 4 =? 0) eqn:Hz.
  - apply Z.eqb_eq in Hz. split; [|lia]. intros _. simpl.
    pose proof (Z.div_mod durVal 4 ltac:(lia)). lia.
  - apply Z.eqb_neq in Hz. split; [unfold top_level; lia|].
    intros Hl.
    assert (0 < durVal `div` 4)
      by (pose proof (Z.div_pos durVal 4 Hd ltac:(lia)); lia).
    destruct (top_level_digit durVal ltac:(done)) as [Hne _].
    replace (top_level (durVal `div` 4) `min` (size - 1))%nat
      with (top_level (durVal `div` 4)) in * by lia.
    lia.
Qed.

(** X15.  Beyond the horizon the last level wraps around: a tick count
    that is placed at the last level and the tick count one horizon later
    get the same level and the same offset. *)
Theorem StartTimer_place_wraps (size : nat) (durVal : Z) :
  (2 ≤ size)%nat → horizon (size - 1) ≤ durVal →
  StartTimer_place size (durVal + horizon size) = StartTimer_place size durVal ∧
  ∃ offset, StartTimer_place size durVal = Some ((size - 1)%nat, offset).
Proof.
  intros Hs Hd. unfold horizon in *.
  destruct size as [|[|n]]; [lia | lia |].
  replace (Z.of_nat (S (S n) - 1) - 1) with (Z.of_nat n) in Hd by lia.
  replace (Z.of_nat (S (S n)) - 1) with (Z.succ (Z.of_nat n)) by lia.
  rewrite Z.pow_succ_r by lia.
  assert (0 < 64 ^ Z.of_nat n) as Hpow by (apply Z.pow_pos_nonneg; lia).
  assert (∀ d, 4 * 64 ^ Z.of_nat n ≤ d →
            place_level (S (S n)) d = S n) as Hlevel.
  { intros d Hge. unfold place_level.
    assert (64 ^ Z.of_nat n ≤ d `div` 4)
      by (apply Z.div_le_lower_bound; lia).
    rewrite (proj2 (Z.eqb_neq _ _)) by lia.
    assert (n < top_level (d `div` 4))%nat; [|lia].
    apply shiftr_pos_top_level; [lia|].
    rewrite shiftr_gears. apply Z.div_str_pos. lia. }
  rewrite !StartTimer_place_spec by lia.
  rewrite !Hlevel by lia.
  split; [|by eexists]. f_equal. f_equal.
  unfold level_digit.
  replace (durVal + 4 * (64 * 64 ^ Z.of_nat n))
    with (durVal + 64 * (4 * 64 ^ Z.of_nat n)) by lia.
  rewrite Z.div_add by lia.
  replace (durVal `div` (4 * 64 ^ Z.of_nat n) + 64)
    with (durVal `div` (4 * 64 ^ Z.of_nat n) + 1 * 64) by lia.
  by rewrite Z.mod_add by lia.
Qed.

Lemma StartTimer_place_monotone_witness :
  (2 ≤ 11)%nat ∧ 0 ≤ 1000 ≤ 70000 ∧
  ∃ l1 o1 l2 o2,
    StartTimer_place 11 1000 = Some (l1, o1) ∧
    StartTimer_place 11 70000 = Some (l2, o2) ∧ (l1 ≤ l2)%nat.
Proof.
  split; [lia|]. split; [lia|].
  apply (StartTimer_place_monotone 11 1000 70000); lia.
Defined.

Lemma StartTimer_place_offset_witness :
  (2 ≤ 11)%nat ∧ 0 ≤ 1000 ∧
  ∃ level offset,
    StartTimer_place 11 1000 = Some (level, offset) ∧
    (level < 11)%nat ∧ 0 ≤ offset < level_size level ∧
    (level = 0%nat → offset = 1000) ∧
    ((1 ≤ level < 11 - 1)%nat → 1 ≤ offset).
Proof.
  split; [lia|]. split; [lia|].
  apply (StartTimer_place_offset 11 1000); lia.
Defined.

Lemma StartTimer_place_wraps_witness :
  (2 ≤ 3)%nat ∧ horizon (3 - 1) ≤ 300 ∧
  StartTimer_place 3 (300 + horizon 3) = StartTimer_place 3 300 ∧
  ∃ offset, StartTimer_place 3 300 = Some ((3 - 1)%nat, offset).
Proof.
  split; [lia|]. split; [vm_compute; discriminate|].
  apply (StartTimer_place_wraps 3 300); [lia | vm_compute; discriminate].
Defined.

(** * Further properties of the driver loop and of the constructor *)

Lemma from_digits_mod (ds : list Z) : ∀ (rest : Z),
  (∀ j, (j < length ds)%nat →
        ds !! j = Some ((rest `div` 64 ^ Z.of_nat j) `mod` 64)) →
  from_digits ds = rest `mod` 64 ^ Z.of_nat (length ds).
Proof.
  induction ds as [|d ds IH]; intros rest Hds.
  - simpl. by rewrite Z.mod_1_r.
  - pose proof (Hds 0%nat ltac:(simpl; lia)) as H0. simpl in H0.
    injection H0 as ->. rewrite Z.div_1_r.
    cbn [from_digits length]. rewrite (IH (rest `div` 64)).
    + rewrite Nat2Z.inj_succ, Z.pow_succ_r by lia.
      assert (0 < 64 ^ Z.of_nat (length ds)) by (apply Z.pow_pos_nonneg; lia).
      unfold s_gear. by rewrite Z.rem_mul_r by lia.
    + intros j Hj. specialize (Hds (S j) ltac:(simpl; lia)).
      simpl in Hds. rewrite Hds. f_equal. f_equal.
      rewrite Nat2Z.inj_succ, Z.pow_succ_r by lia.
      by rewrite Z.div_div by (try apply Z.pow_pos_nonneg; lia).
Qed.

Section MoreDriver.

Context {F : Type} (F_default : F) (ClockPeriod : Z * Z).
Implicit Types (t : Timer F).

Lemma ThreadRun_pass_fst now t (destPoints : list Z) :
  ThreadRun_pass now t destPoints =
    ((ThreadRun_for (length (<[0%nat :=
                       Z.land (to_uint64 (Z.quot (now - begin_ t) (precision_ t)))
                              (s_gear1 - 1)]> destPoints) - 1) 1
        (to_uint64 (Z.quot (now - begin_ t) (precision_ t)) ≫ s_gear1Shift)
        (<[0%nat := Z.land (to_uint64 (Z.quot (now - begin_ t) (precision_ t)))
                           (s_gear1 - 1)]> destPoints)).1, t).
Proof. unfold ThreadRun_pass. by destruct (ThreadRun_for _ _ _ _). Qed.

(** What a pass leaves in [destPoints], whatever the clock reading:
    the digits of the unsigned tick count it computed. *)
Lemma ThreadRun_pass_lookup now t (destPoints : list Z) :
  length (ThreadRun_pass now t destPoints).1 = length destPoints ∧
  ∀ l, (l < length destPoints)%nat →
    (ThreadRun_pass now t destPoints).1 !! l =
      Some (level_digit l (to_uint64 (Z.quot (now - begin_ t) (precision_ t)))).
Proof.
  rewrite ThreadRun_pass_fst. cbn [fst].
  set (durVal := to_uint64 _).
  rewrite land_gear1, shiftr_gear1.
  set (d0 := <[0%nat := durVal `mod` 4]> destPoints).
  assert (length d0 = length destPoints) as Hd0 by apply length_insert.
  destruct (length destPoints) as [|n] eqn:Hn.
  { rewrite Hd0. simpl. split; [done|]. lia. }
  destruct (ThreadRun_for_spec (length d0 - 1) 1 (durVal `div` 4) d0 ltac:(lia))
    as [Hl Hj].
  split; [lia|].
  intros l Hlt'. rewrite Hj. destruct l as [|l].
  - rewrite decide_False by lia. subst d0.
    rewrite list_lookup_insert_eq by lia. done.
  - rewrite decide_True by lia. rewrite level_digit_succ.
    replace (S l - 1)%nat with l by lia. done.
Qed.

Lemma ThreadRun_pass_ext now t (d1 d2 : list Z) :
  length d1 = length d2 →
  ThreadRun_pass now t d1 = ThreadRun_pass now t d2.
Proof.
  intros Hlen.
  destruct (ThreadRun_pass_lookup now t d1) as [Hl1 Hj1].
  destruct (ThreadRun_pass_lookup now t d2) as [Hl2 Hj2].
  pose proof (ThreadRun_pass_wheel now t d1) as Hw1.
  pose proof (ThreadRun_pass_wheel now t d2) as Hw2.
  destruct (ThreadRun_pass now t d1) as [r1 t1].
  destruct (ThreadRun_pass now t d2) as [r2 t2].
  simpl in *. subst t1 t2. f_equal.
  apply list_eq. intros l.
  destruct (decide (l < length d1)%nat) as [Hlt | Hge].
  - rewrite Hj1, Hj2 by lia. done.
  - rewrite !(proj2 (lookup_ge_None _ _)) by lia. done.
Qed.

Lemma ThreadRun_passes_last (clock : list Z) (now : Z) t :
  ∀ d1 d2 : list Z, length d1 = length d2 →
    ThreadRun_passes (clock ++ [now]) t d1 = ThreadRun_passes [now] t d2.
Proof.
  induction clock as [|c clock IH]; intros d1 d2 Hlen.
  - simpl. by rewrite (ThreadRun_pass_ext now t d1 d2).
  - simpl.
    destruct (ThreadRun_pass_lookup c t d1) as [Hl _].
    pose proof (ThreadRun_pass_wheel c t d1) as Hw.
    destruct (ThreadRun_pass c t d1) as [d' t']. simpl in *. subst t'.
    apply IH. lia.
Qed.

(** X16.  The loop carries nothing from one pass to the next: after any
    number of passes, at whatever clock readings, the destination points
    and the wheel are what a single pass at the last reading gives, and
    the wheel is the one the loop started with. *)
Theorem ThreadRun_last_reading (clock : list Z) (now : Z) t :
  ThreadRun (clock ++ [now]) t = ThreadRun [now] t ∧
  (ThreadRun (clock ++ [now]) t).2 = t.
Proof.
  unfold ThreadRun. split.
  - by apply ThreadRun_passes_last.
  - apply ThreadRun_passes_wheel.
Qed.

(** X17.  The destination points of a pass spell the tick count: read
    back as a 2-bit digit followed by 6-bit digits they give
    [floor((now - epoch) / precision)] modulo the horizon of as many
    levels as there are points, so the tick count itself when it is below
    that horizon. *)
Theorem ThreadRun_pass_recompose now t (destPoints : list Z) :
  0 < precision_ t → begin_ t ≤ now → now - begin_ t < 2 ^ 63 →
  (1 ≤ length destPoints)%nat →
  from_destPoints (ThreadRun_pass now t destPoints).1 =
    ((now - begin_ t) `div` precision_ t) `mod` horizon (length destPoints).
Proof.
  intros Hp Hge Hlt Hlen.
  destruct (ThreadRun_pass_lookup now t destPoints) as [Hl Hj].
  assert (to_uint64 (Z.quot (now - begin_ t) (precision_ t)) =
          (now - begin_ t) `div` precision_ t) as Hd.
  { pose proof (StartTimer_durVal_floor now 0 t Hp) as Hd.
    unfold StartTimer_durVal in Hd. rewrite !Z.add_0_r in Hd.
    by apply Hd. }
  rewrite Hd in Hj. set (ticks := (now - begin_ t) `div` precision_ t) in *.
  destruct (ThreadRun_pass now t destPoints).1 as [|d0 ds] eqn:Hres;
    [simpl in Hl; lia|].
  simpl in Hl. unfold horizon. rewrite <- Hl.
  replace (Z.of_nat (S (length ds)) - 1) with (Z.of_nat (length ds)) by lia.
  pose proof (Hj 0%nat ltac:(lia)) as H0. simpl in H0. injection H0 as ->.
  cbn [from_destPoints]. rewrite (from_digits_mod ds (ticks `div` 4)).
  - assert (0 < 64 ^ Z.of_nat (length ds)) by (apply Z.pow_pos_nonneg; lia).
    unfold s_gear1. by rewrite Z.rem_mul_r by lia.
  - intros j Hjlt. specialize (Hj (S j) ltac:(lia)). simpl in Hj.
    rewrite Hj. f_equal. f_equal.
    by rewrite Z.div_div by (try apply Z.pow_pos_nonneg; lia).
Qed.

(** X18.  The destination the loop computes when the clock reaches a
    deadline is the slot of the entry: on a wheel in one of the states it
    goes through, the entry [StartTimer] links at some level sits in the
    slot whose index is the destination point of that level in a pass at
    the time [now + dur]. *)
Theorem ThreadRun_points_at_entry now dur cb t :
  reachable F_default ClockPeriod t → (2 ≤ length (slots_ t))%nat →
  0 < precision_ t → begin_ t ≤ now + dur → now + dur - begin_ t < 2 ^ 63 →
  ∃ this t' (r : SlotRef) q,
    StartTimer F_default now dur cb t = Some (mkTimerId (Some this) true, t') ∧
    slot_at r t' = Some q ∧ this ∈ q ∧
    (ThreadRun (F:=F) [now + dur] t').1 !! r.1 = Some (Z.of_nat r.2).
Proof.
  intros Hreach HL Hp Hge Hlt.
  destruct (reachable_inv F_default ClockPeriod t Hreach) as [Hinv Hshape].
  destruct (StartTimer_effect F_default now dur cb t Hshape Hinv HL)
    as (this & cursor & t' & Hstart & Hc & Hrest).
  cbv zeta in Hrest. rewrite StartTimer_durVal_floor in Hc, Hrest by done.
  set (ticks := (now + dur - begin_ t) `div` precision_ t) in *.
  set (level := place_level (length (slots_ t)) ticks) in *.
  destruct Hrest as ([q Hq] & Hpush & _).
  assert (cursor = 0) as ->.
  { destruct (reachable_cursors F_default ClockPeriod t Hreach) as [Hz _].
    rewrite Hz in Hc. by apply lookup_replicate in Hc as [-> _]. }
  pose proof (level_digit_bound level ticks) as Hb.
  rewrite Z.add_0_l, Z.mod_small in Hq, Hpush by done.
  exists this, t', (level, Z.to_nat (level_digit level ticks)), (q ++ [this]).
  split; [done|]. split; [by rewrite Hpush, Hq|].
  split; [apply elem_of_app; right; by left|]. cbn [fst snd].
  destruct (StartTimer_frame F_default _ _ _ _ _ _ Hstart)
    as (Hpts & _ & Hbeg & Hprec & _).
  unfold ThreadRun. cbn [ThreadRun_passes].
  destruct (ThreadRun_pass_lookup (now + dur) t'
              (replicate (length (points_ t')) 0)) as [_ Hj].
  destruct (ThreadRun_pass (now + dur) t' _) as [d' t''] eqn:Hpass.
  cbn [fst] in *. rewrite Hj.
  - rewrite Hbeg, Hprec.
    pose proof (StartTimer_durVal_floor now dur t Hp Hge Hlt) as Hd.
    unfold StartTimer_durVal in Hd. rewrite Hd. fold ticks.
    f_equal. lia.
  - rewrite length_replicate, Hpts.
    destruct Hshape as [Hlenp _ _ _]. rewrite Hlenp.
    apply place_level_lt. lia.
Qed.

(** What the level-counting loop returns, when it returns. *)
Lemma Timer_levels_char fuel (Period : Z * Z) : ∀ timeRange level L,
  Timer_levels fuel Period timeRange level = Some L →
  0 < timeRange → 0 < Period.1 →
  (level ≤ L)%nat ∧
  years4_seconds * Period.2 <
    timeRange * 64 ^ Z.of_nat (L - level) * Period.1 ∧
  (L = level ∨
   timeRange * 64 ^ Z.of_nat (L - level - 1) * Period.1 ≤
     years4_seconds * Period.2).
Proof.
  induction fuel as [|fuel IH]; intros timeRange level L; simpl; [done|].
  destruct (le_years4 Period timeRange) eqn:Hle; unfold le_years4 in Hle.
  - apply Z.leb_le in Hle. intros Hrun Hpos Hnum.
    destruct (IH _ _ _ Hrun ltac:(unfold s_gear; lia) Hnum)
      as (Hge & Hgt & Hmin).
    split; [lia|]. unfold s_gear in *. split.
    + replace (L - level)%nat with (S (L - S level)) by lia.
      rewrite Nat2Z.inj_succ, Z.pow_succ_r by lia. lia.
    + right. destruct (decide (L = S level)) as [-> | Hne].
      * replace (S level - level - 1)%nat with 0%nat by lia.
        change (64 ^ Z.of_nat 0) with 1. lia.
      * destruct Hmin as [? | Hmin]; [lia|].
        replace (L - level - 1)%nat with (S (L - S level - 1)) by lia.
        rewrite Nat2Z.inj_succ, Z.pow_succ_r by lia. lia.
  - apply Z.leb_gt in Hle. intros [= <-] Hpos Hnum.
    split; [lia|]. replace (level - level)%nat with 0%nat by lia.
    change (64 ^ Z.of_nat 0) with 1. split; [lia|by left].
Qed.

(** With [timeRange] an integer, a coarser precision never needs more
    levels. *)
Lemma Timer_ctor_levels_antitone fuel1 fuel2 now1 now2 (Period : Z * Z)
    (p1 p2 : Z) (t1 t2 : Timer F) :
  0 < p1 ≤ p2 → 0 < Period.1 →
  Timer_ctor ClockPeriod fuel1 now1 Period p1 = Some t1 →
  Timer_ctor ClockPeriod fuel2 now2 Period p2 = Some t2 →
  (length (slots_ t2) ≤ length (slots_ t1))%nat.
Proof.
  intros Hp Hnum. unfold Timer_ctor.
  destruct (Timer_levels fuel1 Period (p1 * s_gear1) 1) as [L1|] eqn:H1;
    [|done].
  destruct (Timer_levels fuel2 Period (p2 * s_gear1) 1) as [L2|] eqn:H2;
    [|done].
  simpl. intros [= <-] [= <-]. simpl. rewrite !length_resize_slots.
  apply Timer_levels_char in H1 as (Hge1 & Hgt1 & _);
    [|unfold s_gear1; lia|done].
  apply Timer_levels_char in H2 as (Hge2 & _ & Hmin2);
    [|unfold s_gear1; lia|done].
  destruct (decide (L2 ≤ L1)%nat) as [|Hlt]; [done|]. exfalso.
  destruct Hmin2 as [-> | Hmin2]; [lia|].
  unfold s_gear1 in *.
  assert (64 ^ Z.of_nat (L1 - 1) ≤ 64 ^ Z.of_nat (L2 - 1 - 1))
    as Hpow by (apply Z.pow_le_mono_r; lia).
  assert (0 < 64 ^ Z.of_nat (L1 - 1)) as Hpos
    by (apply Z.pow_pos_nonneg; lia).
  assert (p1 * 64 ^ Z.of_nat (L1 - 1) ≤ p2 * 64 ^ Z.of_nat (L2 - 1 - 1))
    as Hmul by (apply Z.mul_le_mono_nonneg; lia).
  assert (p1 * 4 * 64 ^ Z.of_nat (L1 - 1) * Period.1 ≤
          p2 * 4 * 64 ^ Z.of_nat (L2 - 1 - 1) * Period.1); [|lia].
  replace (p1 * 4 * 64 ^ Z.of_nat (L1 - 1) * Period.1)
    with (p1 * 64 ^ Z.of_nat (L1 - 1) * (4 * Period.1)) by lia.
  replace (p2 * 4 * 64 ^ Z.of_nat (L2 - 1 - 1) * Period.1)
    with (p2 * 64 ^ Z.of_nat (L2 - 1 - 1) * (4 * Period.1)) by lia.
  apply Z.mul_le_mono_nonneg_r; lia.
Qed.

End MoreDriver.

(** * More concrete runs *)

Lemma wheel1_driven : driven 0%nat nanoseconds wheel1.
Proof.
  apply (driven_StartTimer _ _ 0 1 7%nat wheel0 handle0 wheel1).
  - exact (driven_ctor _ _ 16%nat 0 nanoseconds 1 wheel0 wheel_1ns_eq).
  - vm_compute. reflexivity.
Qed.

Lemma wheel_2years_eq :
  Timer_ctor nanoseconds 16 0 years 2 = Some wheel_2years.
Proof. vm_compute. reflexivity. Qed.

Lemma wheel_1us_eq :
  Timer_ctor nanoseconds 16 0 nanoseconds 1000 = Some wheel_1us.
Proof. vm_compute. reflexivity. Qed.

Lemma cursors_never_move_witness :
  reachable 0%nat nanoseconds wheel1 ∧
  (1 ≤ length (slots_ wheel1))%nat ∧
  points_ wheel1 = replicate (length (slots_ wheel1)) 0 ∧
  last_ wheel1 = begin_ wheel1.
Proof.
  split; [exact wheel1_reachable|].
  exact (cursors_never_move 0%nat nanoseconds wheel1 wheel1_reachable).
Defined.

Lemma class_never_fires_witness :
  driven 0%nat nanoseconds wheel1 ∧
  fired wheel1 = [] ∧ ∀ this, executions this wheel1 = 0%nat.
Proof.
  split; [exact wheel1_driven|].
  exact (class_never_fires 0%nat nanoseconds wheel1 wheel1_driven).
Defined.

Lemma entries_never_leave_witness :
  reachable 0%nat nanoseconds wheel1 ∧
  pool_ wheel1 = [] ∧ links wheel1 ≡ₚ seq 0 (length (heap wheel1)) ∧
  ∀ this, (this < length (heap wheel1))%nat → link_count this wheel1 = 1%nat.
Proof.
  split; [exact wheel1_reachable|].
  exact (entries_never_leave 0%nat nanoseconds wheel1 wheel1_reachable).
Defined.

Lemma StopTimer_leaves_entry_linked_witness :
  reachable 0%nat nanoseconds wheel1 ∧ TimerId_bool handle0 = true ∧
  TimerId_StopTimer handle0 wheel1 = Some (true, wheel1_cancelled) ∧
  slots_ wheel1_cancelled = slots_ wheel1 ∧
  ∃ this e',
    elem_ handle0 = Some this ∧ heap wheel1_cancelled !! this = Some e' ∧
    Element_isValid e' = false ∧ link_count this wheel1_cancelled = 1%nat.
Proof.
  split; [exact wheel1_reachable|]. split; [reflexivity|].
  split; [reflexivity|].
  exact (StopTimer_leaves_entry_linked 0%nat nanoseconds handle0 wheel1 true
           wheel1_cancelled wheel1_reachable eq_refl eq_refl).
Defined.

Lemma StartTimer_always_in_range_witness :
  wheel_shape wheel0 ∧ wheel_inv wheel0 ∧ (2 ≤ length (slots_ wheel0))%nat ∧
  0 < precision_ wheel0 ∧
  ∃ this t' (r : SlotRef) q,
    StartTimer 0%nat 5 (-1000) 7%nat wheel0 =
      Some (mkTimerId (Some this) true, t') ∧
    (r.1 < length (slots_ wheel0))%nat ∧ Z.of_nat r.2 < level_size r.1 ∧
    slot_at r wheel0 = Some q ∧ slot_at r t' = Some (q ++ [this]) ∧
    wheel_shape t' ∧ wheel_inv t'.
Proof.
  split; [apply wheel0_inv|]. split; [apply wheel0_inv|].
  split; [vm_compute; lia|]. split; [reflexivity|].
  apply (StartTimer_always_in_range 0%nat 5 (-1000) 7%nat wheel0).
  - apply wheel0_inv.
  - apply wheel0_inv.
  - vm_compute. lia.
  - reflexivity.
  - vm_compute. split; [discriminate | reflexivity].
  - vm_compute. split; [discriminate | reflexivity].
Defined.

Lemma StartTimer_level0_iff_witness :
  wheel_shape wheel0 ∧ wheel_inv wheel0 ∧
  ∃ this t' (r : SlotRef) q,
    StartTimer 0%nat 10 0 7%nat wheel0 =
      Some (mkTimerId (Some this) true, t') ∧
    slot_at r t' = Some q ∧ this ∈ q ∧
    (r.1 = 0%nat ↔ (10 + 0 - begin_ wheel0) `div` precision_ wheel0 < 4).
Proof.
  split; [apply wheel0_inv|]. split; [apply wheel0_inv|].
  apply (StartTimer_level0_iff 0%nat 10 0 7%nat wheel0).
  - apply wheel0_inv.
  - apply wheel0_inv.
  - vm_compute. lia.
  - reflexivity.
  - vm_compute. discriminate.
  - reflexivity.
Defined.

Lemma StartTimer_one_level_out_of_range_witness :
  length (slots_ wheel_2years) = 1%nat ∧
  StartTimer_place (length (slots_ wheel_2years))
    (StartTimer_durVal 0 252455616000000000 wheel_2years) =
    Some (1%nat,
          (((0 + 252455616000000000 - begin_ wheel_2years)
              `div` precision_ wheel_2years) `div` 4) `mod` 64) ∧
  slots_ wheel_2years !! 1%nat = None ∧
  StartTimer 0%nat 0 252455616000000000 7%nat wheel_2years = None.
Proof.
  split; [reflexivity|].
  apply (StartTimer_one_level_out_of_range 0%nat 0 252455616000000000 7%nat
           wheel_2years).
  - reflexivity.
  - reflexivity.
  - vm_compute. discriminate.
  - reflexivity.
  - vm_compute. discriminate.
Defined.

Lemma StartTimer_then_fire_or_stop_witness :
  wheel_shape wheel0 ∧ wheel_inv wheel0 ∧ pool_ wheel0 = [] ∧
  (2 ≤ length (slots_ wheel0))%nat ∧ 0 < precision_ wheel0 ∧
  ∃ this t',
    StartTimer 0%nat 0 1 7%nat wheel0 =
      Some (mkTimerId (Some this) true, t') ∧
    (∃ t1, Timer_call this t' = Some t1 ∧
           fired t1 = fired wheel0 ++ [mkFire this 7%nat None true]) ∧
    (∃ t2, TimerId_StopTimer (mkTimerId (Some this) true) t' = Some (true, t2) ∧
           Timer_call this t2 = Some t2 ∧ fired t2 = fired wheel0).
Proof.
  split; [apply wheel0_inv|]. split; [apply wheel0_inv|].
  split; [reflexivity|]. split; [vm_compute; lia|]. split; [reflexivity|].
  apply (StartTimer_then_fire_or_stop 0%nat 0 1 7%nat wheel0).
  - apply wheel0_inv.
  - apply wheel0_inv.
  - vm_compute. lia.
  - reflexivity.
  - reflexivity.
  - vm_compute. split; [discriminate | reflexivity].
  - vm_compute. split; [discriminate | reflexivity].
Defined.

Lemma ThreadRun_pass_recompose_witness :
  0 < precision_ wheel1 ∧ begin_ wheel1 ≤ 1000 ∧
  from_destPoints (ThreadRun_pass 1000 wheel1 (replicate 11 0)).1 =
    ((1000 - begin_ wheel1) `div` precision_ wheel1)
      `mod` horizon (length (replicate 11 0)).
Proof.
  split; [reflexivity|]. split; [vm_compute; discriminate|].
  apply (ThreadRun_pass_recompose 1000 wheel1 (replicate 11 0)).
  - reflexivity.
  - vm_compute. discriminate.
  - reflexivity.
  - vm_compute. lia.
Defined.

Lemma ThreadRun_points_at_entry_witness :
  reachable 0%nat nanoseconds wheel0 ∧
  ∃ this t' (r : SlotRef) q,
    StartTimer 0%nat 0 1000 7%nat wheel0 =
      Some (mkTimerId (Some this) true, t') ∧
    slot_at r t' = Some q ∧ this ∈ q ∧
    (ThreadRun [0 + 1000] t').1 !! r.1 = Some (Z.of_nat r.2).
Proof.
  split; [exact wheel0_reachable|].
  apply (ThreadRun_points_at_entry 0%nat nanoseconds 0 1000 7%nat wheel0).
  - exact wheel0_reachable.
  - vm_compute. lia.
  - reflexivity.
  - vm_compute. discriminate.
  - reflexivity.
Defined.

(** * The entry while its callback runs *)

Section Firing.

Context {F : Type}.
Implicit Types (e : Element F) (t : Timer F) (this : nat).

(** X12.  While the callback of an entry runs, that is between the start
    of [cb_()] and the return of [call], the gate is held by [call]: [StopTimer] on the entry, made from the callback itself or
    from another thread, answers false and changes nothing, and a nested
    fire attempt runs nothing.  When [call] returns the entry is valid
    again. *)
Theorem StopTimer_while_firing this t e :
  heap t !! this = Some e → active_ e = false →
  let firing := set_heap (<[this := (Element_call_body this e).1.2]> (heap t)) t in
  TimerId_StopTimer (mkTimerId (Some this) true) firing = Some (false, firing) ∧
  Timer_call this firing = Some firing ∧
  Element_isValid (Element_call_body this e).1.2 = false ∧
  Element_isValid
    (unique_lock_release (Element_call_body this e).1.1
       (Element_call_body this e).1.2) = true.
Proof.
  intros He Ha firing. rewrite Element_call_body_open by done.
  assert (heap firing !! this = Some (mkElement (cb_ e) true None)) as Hf.
  { subst firing. rewrite Element_call_body_open by done.
    cbn [fst snd heap set_heap].
    apply list_lookup_insert_eq. by eapply lookup_lt_Some. }
  split; [|split; [|done]].
  - change (TimerId_StopTimer (mkTimerId (Some this) true) firing)
      with (Timer_cancel this firing).
    by apply Timer_cancel_held with (mkElement (cb_ e) true None).
  - by apply Timer_call_held with (mkElement (cb_ e) true None).
Qed.

End Firing.

Lemma StopTimer_while_firing_witness :
  heap wheel1 !! 0%nat = Some (mkElement 7%nat false None) ∧
  let firing :=
    set_heap (<[0%nat := mkElement 7%nat true None]> (heap wheel1)) wheel1 in
  TimerId_StopTimer handle0 firing = Some (false, firing) ∧
  Timer_call 0%nat firing = Some firing.
Proof.
  split; [reflexivity|].
  pose proof (StopTimer_while_firing 0%nat wheel1 (mkElement 7%nat false None)
                eq_refl eq_refl) as H.
  exact (conj (proj1 H) (proj1 (proj2 H))).
Defined.

(** * The constructor within the representation of the precision *)

Section ConstructorRep.

Context {F : Type} (ClockPeriod : Z * Z).
Implicit Types (t : Timer F) (Rep Period : Z * Z).

(** A count of levels the loop returns within [Rep] is the count it returns
    on integers. *)
Lemma Timer_levels_Rep_sound Rep fuel Period : ∀ timeRange level L,
  Timer_levels_Rep Rep fuel Period timeRange level = Returns L →
  Timer_levels fuel Period timeRange level = Some L.
Proof.
  induction fuel as [|fuel IH]; intros timeRange level L; [done|]. simpl.
  destruct (le_years4 Period timeRange); [|by intros [= ->]].
  destruct (in_Rep Rep (timeRange * s_gear) && (Z.of_nat level <? int_max));
    [apply IH | done].
Qed.

(** The loop on integers is the loop within [Rep] as long as the last range
    it computes is a value of [Rep] and the count of levels one of [int]. *)
Lemma Timer_levels_Rep_complete Rep fuel Period : ∀ timeRange level L,
  Rep.1 ≤ 0 → 0 < timeRange → Z.of_nat L ≤ int_max →
  Timer_levels fuel Period timeRange level = Some L →
  timeRange * 64 ^ Z.of_nat (L - level) ≤ Rep.2 →
  Timer_levels_Rep Rep fuel Period timeRange level = Returns L.
Proof.
  induction fuel as [|fuel IH]; intros timeRange level L Hmin Hpos HL; [done|].
  simpl. destruct (le_years4 Period timeRange).
  - intros Hrun Hfit. pose proof (Timer_levels_ge _ _ _ _ _ Hrun) as Hge.
    rewrite (proj2 (Z.ltb_lt (Z.of_nat level) int_max)), andb_true_r by lia.
    replace (L - level)%nat with (S (L - S level)) in Hfit by lia.
    rewrite Nat2Z.inj_succ, Z.pow_succ_r in Hfit by lia.
    assert (0 < 64 ^ Z.of_nat (L - S level)) as Hpow
      by (apply Z.pow_pos_nonneg; lia).
    assert (timeRange * 64 * 1 ≤ timeRange * 64 * 64 ^ Z.of_nat (L - S level))
      as Hle by (apply Z.mul_le_mono_nonneg_l; lia).
    assert (in_Rep Rep (timeRange * s_gear) = true) as ->.
    { unfold in_Rep, s_gear. apply andb_true_intro.
      split; apply Z.leb_le; lia. }
    apply IH; [done | unfold s_gear; lia | done | done | unfold s_gear; lia].
  - intros [= ->] _. reflexivity.
Qed.

(** A wheel the constructor returns within [Rep] is the wheel [Timer_ctor]
    returns. *)
Lemma Timer_ctor_Rep_sound Rep fuel now Period precision t :
  Timer_ctor_Rep ClockPeriod Rep fuel now Period precision = Returns t →
  Timer_ctor ClockPeriod fuel now Period precision = Some t.
Proof.
  unfold Timer_ctor_Rep, Timer_ctor.
  destruct (in_Rep Rep (precision * s_gear1)); [|done].
  destruct (Timer_levels_Rep Rep fuel Period (precision * s_gear1) 1)
    as [L| |] eqn:HL; [|done|done].
  apply Timer_levels_Rep_sound in HL. rewrite HL. by intros [= <-].
Qed.

(** A range that is not positive never exceeds four years: the loop runs
    until a product leaves [Rep] or the counter leaves [int]. *)
Lemma Timer_levels_Rep_nonpositive Rep fuel Period :
  0 < Period.1 → 0 < Period.2 →
  ∀ timeRange level L, timeRange ≤ 0 →
    Timer_levels_Rep Rep fuel Period timeRange level ≠ Returns L.
Proof.
  intros Hnum Hden.
  induction fuel as [|fuel IH]; intros timeRange level L Hle; [done|].
  simpl. unfold le_years4.
  rewrite (proj2 (Z.leb_le _ _)) by (unfold years4_seconds; nia).
  destruct (in_Rep Rep (timeRange * s_gear) && (Z.of_nat level <? int_max));
    [|done].
  apply IH. unfold s_gear. lia.
Qed.

(** With a precision that is not positive the constructor never returns a
    wheel. *)
Lemma Timer_ctor_Rep_nonpositive Rep fuel now Period precision t :
  0 < Period.1 → 0 < Period.2 → precision ≤ 0 →
  Timer_ctor_Rep ClockPeriod Rep fuel now Period precision ≠ Returns t.
Proof.
  intros Hnum Hden Hle. unfold Timer_ctor_Rep.
  destruct (in_Rep Rep (precision * s_gear1)); [|done].
  destruct (Timer_levels_Rep Rep fuel Period (precision * s_gear1) 1)
    as [L| |] eqn:HL; [|done|done].
  exfalso. revert HL. apply Timer_levels_Rep_nonpositive; [done | done |].
  unfold s_gear1. lia.
Qed.

(** C7 (as the code has it).  For a positive precision that converts to
    the unit of the clock within [int64], and such that some range
    [precision * 4 * 64^k] that exceeds four years is a value of [Rep],
    also when it is expressed in the unit [1/den] in which it is compared
    with four years ([k] being below [int_max], as it is for any [Rep] of
    fewer than [2^33] bits): the constructor returns; the wheel it builds has 4 slots at level 0 and 64
    slots at every further level, one cursor per level, and a number of
    levels [L] for which the horizon [precision * 4 * 64^(L-1)] exceeds
    four years; [L] is the least such number, and that horizon is a value
    of [Rep]. *)
Theorem Timer_ctor_Rep_levels Rep (now : Z) Period (precision : Z) (k : nat) :
  0 < precision → 0 < Period.1 → 0 < Period.2 → Rep.1 ≤ 0 →
  precision * (Period.1 * ClockPeriod.2) < 2 ^ 63 →
  Z.of_nat k < int_max →
  years4_seconds * Period.2 < precision * 4 * 64 ^ Z.of_nat k * Period.1 →
  precision * 4 * 64 ^ Z.of_nat k * Period.1 ≤ Rep.2 →
  ∃ (fuel0 : nat) (t : Timer F),
    (∀ fuel, (fuel0 ≤ fuel)%nat →
       Timer_ctor_Rep ClockPeriod Rep fuel now Period precision = Returns t) ∧
    let L := length (slots_ t) in
    (1 ≤ L ≤ 1 + k)%nat ∧ length (points_ t) = L ∧
    length <$> slots_ t !! 0%nat = Some 4%nat ∧
    (∀ l, (1 ≤ l < L)%nat → length <$> slots_ t !! l = Some 64%nat) ∧
    years4_seconds * Period.2 <
      precision * 4 * 64 ^ (Z.of_nat L - 1) * Period.1 ∧
    (L = 1%nat ∨
     precision * 4 * 64 ^ (Z.of_nat L - 2) * Period.1 ≤
       years4_seconds * Period.2) ∧
    precision * 4 * 64 ^ (Z.of_nat L - 1) ≤ Rep.2.
Proof.
  intros Hp Hnum Hden Hmin Hcast Hk Hbig Hcmp.
  assert (precision * 4 * 64 ^ Z.of_nat k ≤ Rep.2) as Hfit.
  { assert (0 < 64 ^ Z.of_nat k) as Hpow by (apply Z.pow_pos_nonneg; lia).
    assert (0 ≤ precision * 4 * 64 ^ Z.of_nat k) as Hnn
      by (apply Z.mul_nonneg_nonneg; lia).
    assert (precision * 4 * 64 ^ Z.of_nat k * 1 ≤
            precision * 4 * 64 ^ Z.of_nat k * Period.1)
      by (apply Z.mul_le_mono_nonneg_l; lia).
    lia. }
  destruct (Timer_levels_stops Period k Hnum (precision * s_gear1) 1%nat)
    as (n & Hn & Hrun & Hgt & Hleast).
  { unfold s_gear1. lia. }
  { unfold s_gear1. exact Hbig. }
  unfold s_gear1 in Hgt, Hleast.
  assert (precision * 4 * 64 ^ Z.of_nat n ≤ Rep.2) as Hfit'.
  { assert (64 ^ Z.of_nat n ≤ 64 ^ Z.of_nat k) as Hpow
      by (apply Z.pow_le_mono_r; lia).
    assert (precision * 4 * 64 ^ Z.of_nat n ≤ precision * 4 * 64 ^ Z.of_nat k)
      by (apply Z.mul_le_mono_nonneg_l; lia).
    lia. }
  assert (precision * 4 ≤ Rep.2) as Hfit0.
  { assert (0 < 64 ^ Z.of_nat n) as Hpow by (apply Z.pow_pos_nonneg; lia).
    assert (precision * 4 * 1 ≤ precision * 4 * 64 ^ Z.of_nat n)
      by (apply Z.mul_le_mono_nonneg_l; lia).
    lia. }
  exists (S n),
    (mkTimer [] [] 0 0 [] now (duration_cast Period ClockPeriod precision)
             (resize_slots (1 + n)) (replicate (1 + n) 0) now).
  split.
  { intros fuel Hf. unfold Timer_ctor_Rep.
    assert (in_Rep Rep (precision * s_gear1) = true) as ->.
    { unfold in_Rep, s_gear1. apply andb_true_intro.
      split; apply Z.leb_le; lia. }
    rewrite (Timer_levels_Rep_complete Rep fuel Period (precision * s_gear1)
               1%nat (1 + n)%nat); [done | done | unfold s_gear1; lia | lia | |].
    - apply Hrun. lia.
    - replace (1 + n - 1)%nat with n by lia. unfold s_gear1. exact Hfit'. }
  cbn [slots_ points_]. cbv zeta.
  rewrite length_resize_slots, length_replicate.
  replace (Z.of_nat (1 + n) - 1) with (Z.of_nat n) by lia.
  replace (Z.of_nat (1 + n) - 2) with (Z.of_nat n - 1) by lia.
  split; [lia|]. split; [done|].
  split; [apply lookup_resize_slots_0; lia|].
  split; [intros l Hl; apply lookup_resize_slots_S; lia|].
  split; [exact Hgt|]. split; [|exact Hfit'].
  destruct Hleast as [-> | Hleast]; [by left | by right].
Qed.

(** X19.  A coarser precision never needs more levels: of two wheels the
    constructor returns for the same period, no product having left the
    representation of the precision, the one with the larger precision
    has at most as many levels as the other. *)
Theorem Timer_ctor_Rep_levels_antitone Rep fuel1 fuel2 now1 now2 Period
    (p1 p2 : Z) t1 t2 :
  0 < p1 ≤ p2 → 0 < Period.1 →
  Timer_ctor_Rep ClockPeriod Rep fuel1 now1 Period p1 = Returns t1 →
  Timer_ctor_Rep ClockPeriod Rep fuel2 now2 Period p2 = Returns t2 →
  (length (slots_ t2) ≤ length (slots_ t1))%nat.
Proof.
  intros Hp Hnum H1 H2.
  apply Timer_ctor_Rep_sound in H1. apply Timer_ctor_Rep_sound in H2.
  exact (Timer_ctor_levels_antitone ClockPeriod fuel1 fuel2 now1 now2 Period
           p1 p2 t1 t2 Hp Hnum H1 H2).
Qed.

End ConstructorRep.

(** * Concrete constructions *)

(** C7 (counterexample).  Not every precision gives a wheel.  With a
    precision of zero the level-counting loop is still running after 1000
    iterations, the range still being zero (it never returns a wheel,
    [Timer_ctor_Rep_nonpositive]); with a precision of one millisecond held
    in a 32-bit [Rep], the fifth product [4 * 64^5 = 4294967296] is no value
    of [Rep], a signed overflow, while the range is still below four
    years. *)
Lemma Timer_ctor_Rep_not_every_precision :
  Timer_ctor_Rep (F:=nat) nanoseconds int64_limits 1000 0 nanoseconds 0
    = Running ∧
  Timer_ctor_Rep (F:=nat) nanoseconds int32_limits 1000 0 milliseconds 1
    = Undefined ∧
  le_years4 milliseconds (4 * 64 ^ 4) = true ∧
  in_Rep int32_limits (4 * 64 ^ 5) = false.
Proof. vm_compute. done. Qed.

Lemma Timer_ctor_Rep_levels_witness :
  0 < 1 ∧ 1 * (nanoseconds.1 * nanoseconds.2) < 2 ^ 63 ∧
  Z.of_nat 10 < int_max ∧
  years4_seconds * nanoseconds.2 < 1 * 4 * 64 ^ Z.of_nat 10 * nanoseconds.1 ∧
  1 * 4 * 64 ^ Z.of_nat 10 * nanoseconds.1 ≤ int64_limits.2 ∧
  ∃ (fuel0 : nat) (t : Timer nat),
    (∀ fuel, (fuel0 ≤ fuel)%nat →
       Timer_ctor_Rep nanoseconds int64_limits fuel 0 nanoseconds 1
         = Returns t) ∧
    let L := length (slots_ t) in
    (1 ≤ L ≤ 1 + 10)%nat ∧ length (points_ t) = L ∧
    length <$> slots_ t !! 0%nat = Some 4%nat ∧
    (∀ l, (1 ≤ l < L)%nat → length <$> slots_ t !! l = Some 64%nat) ∧
    years4_seconds * nanoseconds.2 <
      1 * 4 * 64 ^ (Z.of_nat L - 1) * nanoseconds.1 ∧
    (L = 1%nat ∨
     1 * 4 * 64 ^ (Z.of_nat L - 2) * nanoseconds.1 ≤
       years4_seconds * nanoseconds.2) ∧
    1 * 4 * 64 ^ (Z.of_nat L - 1) ≤ int64_limits.2.
Proof.
  split; [reflexivity|]. split; [reflexivity|]. split; [reflexivity|].
  split; [reflexivity|]. split; [vm_compute; discriminate|].
  apply (Timer_ctor_Rep_levels (F:=nat) nanoseconds int64_limits 0
           nanoseconds 1 10).
  - reflexivity.
  - reflexivity.
  - reflexivity.
  - vm_compute. discriminate.
  - reflexivity.
  - reflexivity.
  - reflexivity.
  - vm_compute. discriminate.
Defined.

Lemma Timer_ctor_Rep_levels_antitone_witness :
  Timer_ctor_Rep nanoseconds int64_limits 16 0 nanoseconds 1
    = Returns wheel0 ∧
  Timer_ctor_Rep nanoseconds int64_limits 16 0 nanoseconds 1000
    = Returns wheel_1us ∧
  (length (slots_ wheel_1us) ≤ length (slots_ wheel0))%nat.
Proof.
  split; [vm_compute; reflexivity|]. split; [vm_compute; reflexivity|].
  apply (Timer_ctor_Rep_levels_antitone nanoseconds int64_limits 16 16 0 0
           nanoseconds 1 1000 wheel0 wheel_1us).
  - lia.
  - reflexivity.
  - vm_compute. reflexivity.
  - vm_compute. reflexivity.
Defined.

(** C3 (the failing input).  A wheel built with a precision of two years
    has one level.
    [StartTimer] with a deadline four ticks after the epoch takes the
    branch that starts with [++level], before the test
    [level + 1 < slots_.size()] is reached: it computes level 1, which is
    [slots_.size()] and not the last level built, and [slots_[1]] is
    indexed out of range. *)
Theorem StartTimer_one_level_not_clamped :
  Timer_ctor_Rep nanoseconds int64_limits 16 0 years 2
    = Returns wheel_2years ∧
  length (slots_ wheel_2years) = 1%nat ∧
  StartTimer_durVal 0 252455616000000000 wheel_2years = 4 ∧
  StartTimer_place (length (slots_ wheel_2years)) 4 = Some (1%nat, 1) ∧
  slots_ wheel_2years !! 1%nat = None ∧
  StartTimer 0%nat 0 252455616000000000 7%nat wheel_2years = None.
Proof. vm_compute. done. Qed.
